(** * AcousticBEM: axisymmetric Helmholtz boundary integrals

    A shallow embedding of [Python/HelmholtzIntegralsRAD.py]: the half-circle
    integrator [CircularIntegratorPi], the line quadratures
    [ComplexQuadGenerator] and [ComplexQuadCone], and the four kernel
    evaluators [ComputeL], [ComputeM], [ComputeMt] and [ComputeN].

    Conventions of the embedding.
    - Numbers.  Python floats and numpy [float32]/[complex] values are read as
      exact real and complex numbers ([R], and [C] below); no rounding, no
      [inf]/[nan].  A division whose divisor is zero keeps whatever value [R]
      gives it, except where Python turns it into an exception (see below).
      The decimal constants of the sample table are taken as written.
    - Language level.  The repository is Python 3 code (its modules carry
      non-ASCII text without a coding line), so [/] between two integers is
      true division.
    - Exceptions.  Every function returns in the [result] monad.  The
      exceptions the code can raise on numeric input are modelled:
      [NameError] for a name that no enclosing scope binds,
      [ZeroDivisionError] for a Python float divided by the Python integer 0,
      [ValueError] for an array of negative size and for [int(nan)],
      [OverflowError] for [int(inf)].  [RecursionError] only marks the
      bottom of the unrolled self-calls and is never produced.
    - Closures.  A nested [def] becomes a top-level definition that takes the
      captured variables as leading arguments.
    - Left out: assignments whose value is never read ([ap] in [ComputeL],
      [IKR] in the static off-element kernel of [ComputeN]) and the
      [return 0.0] statements that no path reaches. *)

From Stdlib Require Import Reals Lra Lia ZArith List String.
Import ListNotations.

Local Open Scope R_scope.

(** ** Exceptions and the result monad *)

Inductive exn : Type :=
| NameError (name : string)
| IndexError
| ZeroDivisionError
| ValueError
| OverflowError
| TypeError
| RecursionError.

Inductive result (A : Type) : Type :=
| Ok (a : A)
| Raise (e : exn).

Arguments Ok {A} a.
Arguments Raise {A} e.

Definition bind {A B : Type} (m : result A) (f : A -> result B) : result B :=
  match m with
  | Ok a => f a
  | Raise e => Raise e
  end.

Notation "x <- m ;; k" := (bind m (fun x => k))
  (at level 61, m at next level, right associativity).

Definition succeeds {A : Type} (m : result A) : Prop := exists a, m = Ok a.

(** ** Complex numbers *)

Record C : Type := mkC { Re : R; Im : R }.

Declare Scope C_scope.
Delimit Scope C_scope with C.
Bind Scope C_scope with C.

Definition RtoC (x : R) : C := mkC x 0.
(** Python's [1j]. *)
Definition Ci : C := mkC 0 1.

Definition Cadd (z w : C) : C := mkC (Re z + Re w) (Im z + Im w).
Definition Csub (z w : C) : C := mkC (Re z - Re w) (Im z - Im w).
Definition Cneg (z : C) : C := mkC (- Re z) (- Im z).
Definition Cmul (z w : C) : C :=
  mkC (Re z * Re w - Im z * Im w) (Re z * Im w + Im z * Re w).
(** Division of a complex value by a real one. *)
Definition Cdivr (z : C) (x : R) : C := mkC (Re z / x) (Im z / x).
(** [np.exp] on a complex argument. *)
Definition Cexp (z : C) : C := mkC (exp (Re z) * cos (Im z)) (exp (Re z) * sin (Im z)).

Notation "z + w" := (Cadd z w) : C_scope.
Notation "z - w" := (Csub z w) : C_scope.
Notation "- z" := (Cneg z) : C_scope.
Notation "z * w" := (Cmul z w) : C_scope.
Notation "z '/r' x" := (Cdivr z x) (at level 40, left associativity) : C_scope.

(** ** Meridian-plane and 3-D vectors *)

Record vec2 : Type := V2 { x0 : R; x1 : R }.
Record vec3 : Type := V3 { c0 : R; c1 : R; c2 : R }.

Definition add2 (a b : vec2) : vec2 := V2 (x0 a + x0 b) (x1 a + x1 b).
Definition sub2 (a b : vec2) : vec2 := V2 (x0 a - x0 b) (x1 a - x1 b).
Definition scal2 (s : R) (a : vec2) : vec2 := V2 (s * x0 a) (s * x1 a).
Definition norm2 (a : vec2) : R := sqrt (x0 a * x0 a + x1 a * x1 a).

Definition sub3 (a b : vec3) : vec3 := V3 (c0 a - c0 b) (c1 a - c1 b) (c2 a - c2 b).
Definition scal3 (s : R) (a : vec3) : vec3 := V3 (s * c0 a) (s * c1 a) (s * c2 a).
Definition dot3 (a b : vec3) : R := c0 a * c0 b + c1 a * c1 b + c2 a * c2 b.
Definition norm3 (a : vec3) : R := sqrt (dot3 a a).

(** ** The 8-point Gauss-Legendre table on [0, 1]

    Column 0 is the abscissa, column 1 the weight.  The same table is written
    out in [CircularIntegratorPi] and in [ComplexQuadGenerator]. *)

Definition samples : list (R * R) :=
  [ (0.980144928249, 5.061426814519E-02);
    (0.898333238707, 0.111190517227);
    (0.762766204958, 0.156853322939);
    (0.591717321248, 0.181341891689);
    (0.408282678752, 0.181341891689);
    (0.237233795042, 0.156853322939);
    (0.101666761293, 0.111190517227);
    (1.985507175123E-02, 5.061426814519E-02) ].

(** [samples.shape[0]] *)
Definition samples_shape0 : nat := List.length samples.

(** [samples[n, 0]] and [samples[n, 1]] *)
Definition abscissa (n : nat) : R := fst (nth n samples (0, 0)).
Definition weight (n : nat) : R := snd (nth n samples (0, 0)).

(** ** CircularIntegratorPi *)

Module CircularIntegratorPi.

Record t : Type := Build { segments : Z; rotationFactors : list vec2 }.

(** The angle of sample [i], before it is scaled by [factor].  [i] and
    [samples.shape[0]] are both Python integers, so [i / samples.shape[0]]
    is the real quotient. *)
Definition arcAbscissa (i : nat) : R :=
  INR i / INR samples_shape0 + abscissa (i mod samples_shape0).

Definition rotationFactor (factor : R) (i : nat) : vec2 :=
  let a := arcAbscissa i * factor in
  V2 (cos a) (sin a).

(** [__init__].  [np.empty] refuses a negative size; [np.pi / segments]
    divides a Python float by a Python integer. *)
Definition init (segs : Z) : result t :=
  if (segs <? 0)%Z then Raise ValueError
  else if (segs =? 0)%Z then Raise ZeroDivisionError
  else
    let nSamples := (Z.to_nat segs * samples_shape0)%nat in
    let factor := PI / IZR segs in
    Ok (Build segs (map (rotationFactor factor) (seq 0 nSamples))).

(** The loop of [integrate]: [n] is the index of the head of [rf]. *)
Fixpoint integrate_loop (func : vec2 -> result C) (rf : list vec2)
         (n : nat) (sum : C) : result C :=
  match rf with
  | [] => Ok sum
  | x :: rest =>
      v <- func x ;;
      integrate_loop func rest (S n)
        (sum + RtoC (weight (n mod samples_shape0)) * v)%C
  end.

Definition integrate (self : t) (func : vec2 -> result C) : result C :=
  sum <- integrate_loop func (rotationFactors self) 0 (RtoC 0) ;;
  Ok ((sum * RtoC PI) /r IZR (segments self))%C.

End CircularIntegratorPi.

(** ** Line quadratures *)

(** The loop of the baseline rule: one row of the table per iteration. *)
Fixpoint ComplexQuad_loop (func : vec2 -> result C) (start vec : vec2)
         (rows : list (R * R)) (sum : C) : result C :=
  match rows with
  | [] => Ok sum
  | row :: rest =>
      let x := add2 start (scal2 (fst row) vec) in
      v <- func x ;;
      ComplexQuad_loop func start vec rest (sum + RtoC (snd row) * v)%C
  end.

(** Modelled from the spec: [ComplexQuad] is imported from
    [Jupyter/HelmholtzIntegrals2D.py], which is not among the sources.  The
    spec describes it as the fixed 8-point Gauss-Legendre complex integral of
    a function along a straight meridian-plane segment, over the sample table
    that the other quadratures reuse: every sample point
    [start + abscissa * (end - start)] is evaluated, the weighted values are
    summed and the sum is scaled by the length of the segment. *)
Definition ComplexQuad (func : vec2 -> result C) (start end_ : vec2) : result C :=
  let vec := sub2 end_ start in
  sum <- ComplexQuad_loop func start vec samples (RtoC 0) ;;
  Ok (sum * RtoC (norm2 vec))%C.

(** The loop of [ComplexQuadGenerator]: the abscissa is squared for the
    sample point and multiplies the weighted value. *)
Fixpoint ComplexQuadGenerator_loop (func : vec2 -> result C) (start vec : vec2)
         (rows : list (R * R)) (sum : C) : result C :=
  match rows with
  | [] => Ok sum
  | row :: rest =>
      let x := add2 start (scal2 (fst row ^ 2) vec) in
      v <- func x ;;
      ComplexQuadGenerator_loop func start vec rest
        (sum + RtoC (snd row) * v * RtoC (fst row))%C
  end.

Definition ComplexQuadGenerator (func : vec2 -> result C) (start end_ : vec2)
  : result C :=
  let vec := sub2 end_ start in
  sum <- ComplexQuadGenerator_loop func start vec samples (RtoC 0) ;;
  Ok (RtoC 2 * sum * RtoC (norm2 vec))%C.

(** The loop of [ComplexQuadCone] over [s in range(segments)]. *)
Fixpoint ComplexQuadCone_loop (func : vec2 -> result C) (start delta : vec2)
         (ss : list nat) (sum : C) : result C :=
  match ss with
  | [] => Ok sum
  | s :: rest =>
      v <- ComplexQuad func (add2 start (scal2 (INR s) delta))
                            (add2 start (scal2 (INR (s + 1)) delta)) ;;
      ComplexQuadCone_loop func start delta rest (sum + v)%C
  end.

(** [1.0 / segments] divides by a Python integer; a negative [segments]
    gives an empty range. *)
Definition ComplexQuadCone (func : vec2 -> result C) (start end_ : vec2)
           (segments : Z) : result C :=
  if (segments =? 0)%Z then Raise ZeroDivisionError
  else
    let delta := scal2 (1 / IZR segments) (sub2 end_ start) in
    ComplexQuadCone_loop func start delta (seq 0 (Z.to_nat segments)) (RtoC 0).

(** ** Helpers shared by the kernel evaluators *)

(** Python's [int] on a float: truncation toward zero. *)
Definition py_int (x : R) : Z :=
  if Rle_dec 0 x then Int_part x else (- Int_part (- x))%Z.

(** [int(a / b)] where [b] is a numpy scalar: a zero divisor gives [nan]
    (when [a] is zero) or an infinity, and [int] refuses both. *)
Definition int_of_quotient (a b : R) : result Z :=
  if Req_dec_T b 0 then
    if Req_dec_T a 0 then Raise ValueError else Raise OverflowError
  else Ok (py_int (a / b)).

(** [nSections = 1 + int(q[0] * np.pi / norm(qab))], the first statements of
    every evaluator. *)
Definition nSections_of (qa qb : vec2) : result Z :=
  let qab := sub2 qb qa in
  let q := scal2 0.5 (add2 qa qb) in
  n <- int_of_quotient (x0 q * PI) (norm2 qab) ;;
  Ok (1 + n)%Z.

(** [np.sign] *)
Definition np_sign (x : R) : R :=
  if Rlt_dec x 0 then -1 else if Rlt_dec 0 x then 1 else 0.

(** [np.array([p[0], 0.0, p[1]])] *)
Definition lift3 (p : vec2) : vec3 := V3 (x0 p) 0 (x1 p).

(** [q3 = np.array([r * x[0], r * x[1], z])] *)
Definition ring_point (r z : R) (x : vec2) : vec3 := V3 (r * x0 x) (r * x1 x) z.

(** [vec_q3 = np.array([vec_q[0] * x[0], vec_q[0] * x[1], vec_q[1]])] *)
Definition ring_normal (vec_q x : vec2) : vec3 :=
  V3 (x0 vec_q * x0 x) (x0 vec_q * x1 x) (x1 vec_q).

(** [1j * k * RR] *)
Definition ikR (k RR : R) : C := (Ci * RtoC k * RtoC RR)%C.

(** The body every [generatorFunc] (and [coneFunc]) of the file has: build a
    half-circle integrator with [n] segments, read [r] and [z] off the
    meridian point, lift [p], integrate the inner [circleFunc] and scale by
    [r / (2 pi)].  The evaluators differ in [n] and in [circleFunc], which
    receives the captured [p3], [r] and [z]. *)
Definition generatorFunc (n : Z) (p : vec2)
           (circleFunc : vec3 -> R -> R -> vec2 -> result C) (x : vec2)
  : result C :=
  circle <- CircularIntegratorPi.init n ;;
  let r := x0 x in
  let z := x1 x in
  let p3 := lift3 p in
  v <- CircularIntegratorPi.integrate circle (circleFunc p3 r z) ;;
  Ok ((v * RtoC r) /r (2 * PI))%C.

(** The callee of a recursive call that the code never reaches. *)
Definition no_recursion {A : Type} : result A := Raise RecursionError.

(** ** ComputeL: single-layer potential *)

(** [circleFunc] of the two [k == 0.0] branches: [1.0 / norm(rr)]. *)
Definition L_circleFunc_static (p3 : vec3) (r z : R) (x : vec2) : result C :=
  let q3 := ring_point r z x in
  let rr := sub3 q3 p3 in
  Ok (RtoC (1 / norm3 rr)).

(** [circleFunc] of the branch [k != 0.0], [p] on the element:
    [(np.exp(1.0j * k * RR) - 1.0) / RR]. *)
Definition L_circleFunc_regular (k : R) (p3 : vec3) (r z : R) (x : vec2)
  : result C :=
  let q3 := ring_point r z x in
  let rr := sub3 q3 p3 in
  let RR := norm3 rr in
  Ok ((Cexp (ikR k RR) - RtoC 1) /r RR)%C.

(** [circleFunc] of the branch [k != 0.0], [p] off the element:
    [np.exp(1.0j * k * RR) / RR]. *)
Definition L_circleFunc_dynamic (k : R) (p3 : vec3) (r z : R) (x : vec2)
  : result C :=
  let q3 := ring_point r z x in
  let rr := sub3 q3 p3 in
  let RR := norm3 rr in
  Ok (Cexp (ikR k RR) /r RR)%C.

(** The body of [ComputeL]; [self] is the function that the recursive call
    [ComputeL(0.0, p, qa, qb, True)] reaches. *)
Definition ComputeL_body (self : R -> vec2 -> vec2 -> vec2 -> bool -> result C)
           (k : R) (p qa qb : vec2) (pOnElement : bool) : result C :=
  nSections <- nSections_of qa qb ;;
  if pOnElement then
    if Req_dec_T k 0 then
      a <- ComplexQuadGenerator
             (generatorFunc (2 * nSections) p L_circleFunc_static) p qa ;;
      b <- ComplexQuadGenerator
             (generatorFunc (2 * nSections) p L_circleFunc_static) p qb ;;
      Ok (a + b)%C
    else
      a <- self 0 p qa qb true ;;
      b <- ComplexQuad
             (generatorFunc (2 * nSections) p (L_circleFunc_regular k)) qa qb ;;
      Ok (a + b)%C
  else
    if Req_dec_T k 0 then
      ComplexQuad (generatorFunc nSections p L_circleFunc_static) qa qb
    else
      ComplexQuad (generatorFunc nSections p (L_circleFunc_dynamic k)) qa qb.

(** The recursive call is made with [k = 0.0] and lands in a branch that makes
    no further call, so two levels of the body are the whole function. *)
Definition ComputeL : R -> vec2 -> vec2 -> vec2 -> bool -> result C :=
  ComputeL_body (ComputeL_body (fun _ _ _ _ _ => no_recursion)).

(** ** ComputeMt: adjoint double-layer potential *)

(** Values a Python name can be bound to, as far as name resolution and
    subscripting need them. *)
Inductive pyval : Type :=
| PyFloat (x : R)
| PyInt (n : Z)
| PyBool (b : bool)
| PyArray (a : list R)
| PyObject.

Definition namespace : Type := list (string * pyval).

Fixpoint load_name (ns : namespace) (name : string) : result pyval :=
  match ns with
  | [] => Raise (NameError name)
  | (n, v) :: rest => if String.eqb n name then Ok v else load_name rest name
  end.

(** [v[i]] for a non-negative literal index. *)
Definition subscript (v : pyval) (i : nat) : result R :=
  match v with
  | PyArray a =>
      match nth_error a i with
      | Some x => Ok x
      | None => Raise IndexError
      end
  | _ => Raise TypeError
  end.

Definition arr2 (v : vec2) : pyval := PyArray [x0 v; x1 v].
Definition arr3 (v : vec3) : pyval := PyArray [c0 v; c1 v; c2 v].

(** The names imported or defined at the top level of the module. *)
Definition module_globals : namespace :=
  map (fun n => (n, PyObject))
    [ "np"; "norm"; "ComplexQuad"; "Normal2D"; "CircularIntegratorPi";
      "ComplexQuadGenerator"; "ComplexQuadCone"; "ComputeL"; "ComputeM";
      "ComputeMt"; "ComputeN" ]%string.

(** The names visible in the static [circleFunc] of [ComputeMt] when its
    third statement runs: its own locals, then the locals of the enclosing
    [generatorFunc], then those of [ComputeMt], then the module. *)
Definition Mt_static_namespace (k : R) (p vecp qa qb : vec2) (pOnElement : bool)
           (nSections : Z) (p3 : vec3) (r z : R) (x : vec2) (q3 rr : vec3)
  : namespace :=
  [ ("x", arr2 x); ("q3", arr3 q3); ("rr", arr3 rr) ]%string
  ++ [ ("circle", PyObject); ("r", PyFloat r); ("z", PyFloat z);
       ("p3", arr3 p3); ("circleFunc", PyObject) ]%string
  ++ [ ("k", PyFloat k); ("p", arr2 p); ("vecp", arr2 vecp); ("qa", arr2 qa);
       ("qb", arr2 qb); ("pOnElement", PyBool pOnElement);
       ("qab", arr2 (sub2 qb qa)); ("q", arr2 (scal2 0.5 (add2 qa qb)));
       ("nSections", PyInt nSections); ("generatorFunc", PyObject) ]%string
  ++ module_globals.

(** [circleFunc] of the branch [k == 0.0].  The statement
    [dotRnP = vecp[0] * rr[0] + vec[1] * rr[2]] is evaluated operand by
    operand, each name looked up in the namespace above. *)
Definition Mt_circleFunc_static (k : R) (p vecp qa qb : vec2) (pOnElement : bool)
           (nSections : Z) (p3 : vec3) (r z : R) (x : vec2) : result C :=
  let q3 := ring_point r z x in
  let rr := sub3 q3 p3 in
  let ns := Mt_static_namespace k p vecp qa qb pOnElement nSections p3 r z x q3 rr in
  a <- (v <- load_name ns "vecp" ;; subscript v 0) ;;
  b <- (v <- load_name ns "rr" ;; subscript v 0) ;;
  c <- (v <- load_name ns "vec" ;; subscript v 1) ;;
  d <- (v <- load_name ns "rr" ;; subscript v 2) ;;
  let dotRnP := a * b + c * d in
  Ok (RtoC (dotRnP / (norm3 rr * dot3 rr rr))).

(** [circleFunc] of the branch [k != 0.0]. *)
Definition Mt_circleFunc_dynamic (k : R) (vecp : vec2) (p3 : vec3) (r z : R)
           (x : vec2) : result C :=
  let q3 := ring_point r z x in
  let rr := sub3 q3 p3 in
  let RR := norm3 rr in
  let dotRnP := x0 vecp * c0 rr + x1 vecp * c2 rr in
  Ok ((- (ikR k RR - RtoC 1) * Cexp (ikR k RR) * RtoC dotRnP)
        /r (RR * dot3 rr rr))%C.

Definition ComputeMt (k : R) (p vecp qa qb : vec2) (pOnElement : bool)
  : result C :=
  nSections <- nSections_of qa qb ;;
  if Req_dec_T k 0 then
    let gen := generatorFunc nSections p
                 (Mt_circleFunc_static k p vecp qa qb pOnElement nSections) in
    if pOnElement then
      a <- ComplexQuad gen qa p ;;
      b <- ComplexQuad gen p qb ;;
      Ok (a + b)%C
    else ComplexQuad gen qa qb
  else
    let gen := generatorFunc nSections p (Mt_circleFunc_dynamic k vecp) in
    if pOnElement then
      a <- ComplexQuad gen qa p ;;
      b <- ComplexQuad gen p qb ;;
      Ok (a + b)%C
    else ComplexQuad gen qa qb.

(** ** ComputeM and ComputeN: the evaluators that use the element normal *)

Section WithNormal.

(** [Normal2D] is imported from [Jupyter/Geometry.py], which is not among the
    sources; the evaluators only pass the element's end points to it and read
    the two components of its result. *)
Variable Normal2D : vec2 -> vec2 -> vec2.

(** *** ComputeM: double-layer potential *)

(** [circleFunc] of the branch [k == 0.0]. *)
Definition M_circleFunc_static (vec_q : vec2) (p3 : vec3) (r z : R) (x : vec2)
  : result C :=
  let q3 := ring_point r z x in
  let vec_q3 := ring_normal vec_q x in
  let rr := sub3 q3 p3 in
  Ok (RtoC (- dot3 rr vec_q3 / (norm3 rr * dot3 rr rr))).

(** [circleFunc] of the branch [k != 0.0]. *)
Definition M_circleFunc_dynamic (k : R) (vec_q : vec2) (p3 : vec3) (r z : R)
           (x : vec2) : result C :=
  let q3 := ring_point r z x in
  let vec_q3 := ring_normal vec_q x in
  let rr := sub3 q3 p3 in
  let RR := norm3 rr in
  Ok (((ikR k RR - RtoC 1) * Cexp (ikR k RR) * RtoC (dot3 rr vec_q3))
        /r (RR * dot3 rr rr))%C.

Definition ComputeM (k : R) (p qa qb : vec2) (pOnElement : bool) : result C :=
  let vec_q := Normal2D qa qb in
  nSections <- nSections_of qa qb ;;
  if Req_dec_T k 0 then
    let gen := generatorFunc nSections p (M_circleFunc_static vec_q) in
    if pOnElement then
      a <- ComplexQuad gen qa p ;;
      b <- ComplexQuad gen p qb ;;
      Ok (a + b)%C
    else ComplexQuad gen qa qb
  else
    let gen := generatorFunc nSections p (M_circleFunc_dynamic k vec_q) in
    if pOnElement then
      a <- ComplexQuad gen qa p ;;
      b <- ComplexQuad gen p qb ;;
      Ok (a + b)%C
    else ComplexQuad gen qa qb.

(** *** ComputeN: hypersingular kernel *)

(** [circleFunc] inside [coneFunc(x, direction)], branch [k == 0.0] with [p]
    on the element. *)
Definition N_circleFunc_cone (vecp3 : vec3) (direction : R) (p3 : vec3)
           (r z : R) (x : vec2) : result C :=
  let q3 := ring_point r z x in
  let vec_q3 := scal3 (sqrt 0.5) (V3 (x0 x) (x1 x) direction) in
  let dnpnq := dot3 vecp3 vec_q3 in
  let rr := sub3 q3 p3 in
  let RR := norm3 rr in
  let dotRNP := dot3 rr vecp3 in
  let dotRNQ := - dot3 rr vec_q3 in
  let RNPRNQ := dotRNP * dotRNQ / dot3 rr rr in
  Ok (RtoC ((dnpnq + 3 * RNPRNQ) / (RR * dot3 rr rr))).

(** [coneFunc(x, direction)] *)
Definition coneFunc (nSections : Z) (p : vec2) (vecp3 : vec3) (x : vec2)
           (direction : R) : result C :=
  generatorFunc nSections p (N_circleFunc_cone vecp3 direction) x.

(** [circleFunc] of the branch [k != 0.0] with [p] on the element. *)
Definition N_circleFunc_regular (k : R) (vecp vec_q : vec2) (p3 : vec3)
           (r z : R) (x : vec2) : result C :=
  let q3 := ring_point r z x in
  let vec_q3 := ring_normal vec_q x in
  let rr := sub3 q3 p3 in
  let RR := norm3 rr in
  let DNPNQ := x0 vecp * c0 vec_q3 + x1 vecp * c2 vec_q3 in
  let dotRnP := x0 vecp * c0 rr + x1 vecp * c2 rr in
  let dotRnQ := - dot3 rr vec_q3 in
  let RNPRNQ := dotRnP * dotRnQ / dot3 rr rr in
  let RNPNQ := - (DNPNQ + RNPRNQ) / RR in
  let IKR := ikR k RR in
  let FPG0 := 1 / RR in
  let FPGR := ((Cexp IKR /r dot3 rr rr) * (IKR - RtoC 1))%C in
  let FPGR0 := - 1 / dot3 rr rr in
  let FPGRR := ((Cexp IKR * (RtoC 2 - RtoC 2 * IKR - RtoC ((k * RR) ^ 2)))
                  /r (RR * dot3 rr rr))%C in
  let FPGRR0 := 2 / (RR * dot3 rr rr) in
  Ok ((FPGR - RtoC FPGR0) * RtoC RNPNQ + (FPGRR - RtoC FPGRR0) * RtoC RNPRNQ
      + RtoC (k ^ 2 * FPG0 / 2))%C.

(** [circleFunc] of the branch [k == 0.0] with [p] off the element. *)
Definition N_circleFunc_static (vecp vec_q : vec2) (p3 : vec3) (r z : R)
           (x : vec2) : result C :=
  let q3 := ring_point r z x in
  let vec_q3 := ring_normal vec_q x in
  let rr := sub3 q3 p3 in
  let RR := norm3 rr in
  let DNPNQ := x0 vecp * c0 vec_q3 + x1 vecp * c2 vec_q3 in
  let dotRnP := x0 vecp * c0 rr + x1 vecp * c2 rr in
  let dotRnQ := - dot3 rr vec_q3 in
  let RNPRNQ := dotRnP * dotRnQ / dot3 rr rr in
  let RNPNQ := - (DNPNQ + RNPRNQ) / RR in
  let FPGR := - 1 / dot3 rr rr in
  let FPGRR := 2 / (RR * dot3 rr rr) in
  Ok (RtoC (FPGR * RNPNQ + FPGRR * RNPRNQ)).

(** [circleFunc] of the branch [k != 0.0] with [p] off the element. *)
Definition N_circleFunc_dynamic (k : R) (vecp vec_q : vec2) (p3 : vec3)
           (r z : R) (x : vec2) : result C :=
  let q3 := ring_point r z x in
  let vec_q3 := ring_normal vec_q x in
  let rr := sub3 q3 p3 in
  let RR := norm3 rr in
  let DNPNQ := x0 vecp * c0 vec_q3 + x1 vecp * c2 vec_q3 in
  let dotRnP := x0 vecp * c0 rr + x1 vecp * c2 rr in
  let dotRnQ := - dot3 rr vec_q3 in
  let RNPRNQ := dotRnP * dotRnQ / dot3 rr rr in
  let RNPNQ := - (DNPNQ + RNPRNQ) / RR in
  let IKR := ikR k RR in
  let FPGR := ((Cexp IKR /r dot3 rr rr) * (IKR - RtoC 1))%C in
  let FPGRR := ((Cexp IKR * (RtoC 2 - RtoC 2 * IKR - RtoC ((k * RR) ^ 2)))
                  /r (RR * dot3 rr rr))%C in
  Ok (FPGR * RtoC RNPNQ + FPGRR * RtoC RNPRNQ)%C.

(** The body of [ComputeN]; [self] is the function that the recursive call
    [ComputeN(0.0, p, vecp, qa, qb, True)] reaches. *)
Definition ComputeN_body
           (self : R -> vec2 -> vec2 -> vec2 -> vec2 -> bool -> result C)
           (k : R) (p vecp qa qb : vec2) (pOnElement : bool) : result C :=
  let qab := sub2 qb qa in
  let vec_q := Normal2D qa qb in
  nSections <- nSections_of qa qb ;;
  if pOnElement then
    if Req_dec_T k 0 then
      let vecp3 := V3 (x0 vecp) 0 (x1 vecp) in
      let lenAB := norm2 qab in
      (* the cone at the qa side of the generator *)
      let direction := np_sign (x1 qa - x1 qb) in
      let direction := if Req_dec_T direction 0 then 1 else direction in
      let tip_a := V2 0 (x1 qa + direction * x0 qa) in
      n <- int_of_quotient (x0 qa * sqrt 2) lenAB ;;
      let nConeSectionsA := (n + 1)%Z in
      coneValA <- ComplexQuadCone
                    (fun x => coneFunc nSections p vecp3 x direction)
                    qa tip_a nConeSectionsA ;;
      (* the cone at the qb side of the generator *)
      let direction := np_sign (x1 qb - x1 qa) in
      let direction := if Req_dec_T direction 0 then -1 else direction in
      let tip_b := V2 0 (x1 qb + direction * x0 qb) in
      n <- int_of_quotient (x0 qb * sqrt 2) lenAB ;;
      let nConeSectionsB := (n + 1)%Z in
      coneValB <- ComplexQuadCone
                    (fun x => coneFunc nSections p vecp3 x direction)
                    qb tip_b nConeSectionsB ;;
      Ok (- (coneValA + coneValB))%C
    else
      let gen := generatorFunc nSections p (N_circleFunc_regular k vecp vec_q) in
      a <- self 0 p vecp qa qb true ;;
      b <- ComputeL 0 p qa qb true ;;
      c <- ComplexQuad gen qa p ;;
      d <- ComplexQuad gen p qb ;;
      Ok (a - (RtoC (k ^ 2) * b) /r 2 + c + d)%C
  else
    if Req_dec_T k 0 then
      ComplexQuad (generatorFunc nSections p (N_circleFunc_static vecp vec_q))
        qa qb
    else
      ComplexQuad (generatorFunc nSections p (N_circleFunc_dynamic k vecp vec_q))
        qa qb.

(** As for [ComputeL], the recursive call has [k = 0.0] and ends there. *)
Definition ComputeN : R -> vec2 -> vec2 -> vec2 -> vec2 -> bool -> result C :=
  ComputeN_body (ComputeN_body (fun _ _ _ _ _ _ => no_recursion)).

End WithNormal.

(** ** Post-processing of field solutions ([Jupyter/bem_functions.py])

    The arguments are Python floats and complex values, as the docstrings
    say; the final [astype(np.complex64)] of [soundPressure] is a rounding
    and is read as the identity.  [SignalPhase] is left out: [np.arctan2]
    tells the two signed zeros apart, which real numbers cannot. *)

(** The default value of the parameter [c] (speed of sound). *)
Definition c_default : R := 344.0.
(** The default value of the parameter [density]. *)
Definition density_default : R := 1.205.

(** [0.5 * k * c / np.pi] *)
Definition wavenumberToFrequency (k c : R) : R := 0.5 * k * c / PI.

(** [2.0 * np.pi * f / c]: a Python float divided by the Python float [c]. *)
Definition frequencyToWavenumber (f c : R) : result R :=
  if Req_dec_T c 0 then Raise ZeroDivisionError else Ok (2.0 * PI * f / c).

(** [1j * density * angularVelocity * np.exp(-1.0j * angularVelocity * t) * phi] *)
Definition soundPressure (k : R) (phi : C) (t c density : R) : C :=
  let angularVelocity := k * c in
  (Ci * RtoC density * RtoC angularVelocity
   * Cexp (- Ci * RtoC angularVelocity * RtoC t) * phi)%C.

(** [np.abs] on a complex value. *)
Definition Cabs (z : C) : R := sqrt (Re z * Re z + Im z * Im z).

(** [np.log10] on a positive real. *)
Definition log10 (x : R) : R := ln x / ln 10.

(** [np.log10(np.abs(pressure / 2e-5)) * 20] *)
Definition SoundMagnitude (pressure : C) : R :=
  log10 (Cabs (pressure /r 2e-5)%C) * 20.

(** [np.conj] *)
Definition Cconj (z : C) : C := mkC (Re z) (- Im z).

(** [0.5 * (np.conj(pressure) * velocity).real] *)
Definition AcousticIntensity (pressure velocity : C) : R :=
  0.5 * Re (Cconj pressure * velocity)%C.

(** ** Auxiliary notions used to state further properties *)

(** The value of a call, transformed; an exception is passed on. *)
Definition rmap {A B : Type} (f : A -> B) (m : result A) : result B :=
  match m with
  | Ok a => Ok (f a)
  | Raise e => Raise e
  end.

(** The squared modulus of a complex value. *)
Definition Cnorm2 (z : C) : R := Re z * Re z + Im z * Im z.

(** ** The descriptions of the specification, in its own words *)

(** The angle of composite sample [i] when [0, pi] is cut into [n] equal
    panels and each panel carries the eight abscissae scaled into it. *)
Definition panel_angle (n : Z) (i : nat) : R :=
  (INR (i / samples_shape0) + abscissa (i mod samples_shape0)) * (PI / IZR n).

Definition panel_rotation (n : Z) (i : nat) : vec2 :=
  V2 (cos (panel_angle n i)) (sin (panel_angle n i)).

(** The segment count of the azimuthal integrator: one plus the integer floor
    of (midpoint radial coordinate times pi over element length). *)
Definition derived_segment_count (qa qb : vec2) : Z :=
  (1 + Int_part (x0 (scal2 0.5 (add2 qa qb)) * PI / norm2 (sub2 qb qa)))%Z.

(** The sign of an axial-coordinate difference, with a default for ties. *)
Definition apex_direction (difference tie : R) : R :=
  if Rlt_dec 0 difference then 1
  else if Rlt_dec difference 0 then -1
  else tie.

(** The point of the symmetry axis at axial offset [direction * radial]
    from [q]. *)
Definition cone_apex (q : vec2) (direction : R) : vec2 :=
  V2 0 (x1 q + direction * x0 q).

(** floor(endpoint radial * sqrt 2 / element length) + 1 *)
Definition cone_segment_count (q : vec2) (len : R) : Z :=
  (Int_part (x0 q * sqrt 2 / len) + 1)%Z.

(** The two cone patches of the static hypersingular evaluation: each apex
    lies on the axis, [direction * radial] away from its end point; the
    direction is the sign of the axial difference of the end points, with a
    fixed value on ties; each cone is integrated by the cone quadrature over
    its own number of segments, and the result is the negated sum. *)
Definition static_cone_sum (p vecp qa qb : vec2) : result C :=
  let n := derived_segment_count qa qb in
  let len := norm2 (sub2 qb qa) in
  let dirA := apex_direction (x1 qa - x1 qb) 1 in
  let dirB := apex_direction (x1 qb - x1 qa) (-1) in
  coneValA <- ComplexQuadCone (fun x => coneFunc n p (lift3 vecp) x dirA)
                qa (cone_apex qa dirA) (cone_segment_count qa len) ;;
  coneValB <- ComplexQuadCone (fun x => coneFunc n p (lift3 vecp) x dirB)
                qb (cone_apex qb dirB) (cone_segment_count qb len) ;;
  Ok (- (coneValA + coneValB))%C.

(** The dynamic hypersingular kernel minus the static one, with the term
    [k^2 / 2 * (1 / R)] that the static single-layer part takes back. *)
Definition N_correction_kernel (k : R) (vecp vec_q : vec2) (p3 : vec3)
           (r z : R) (x : vec2) : result C :=
  dyn <- N_circleFunc_dynamic k vecp vec_q p3 r z x ;;
  sta <- N_circleFunc_static vecp vec_q p3 r z x ;;
  let RR := norm3 (sub3 (ring_point r z x) p3) in
  Ok (dyn - sta + RtoC (k ^ 2 / 2 * (1 / RR)))%C.

(** The dynamic single-layer kernel minus the static one. *)
Definition L_correction_kernel (k : R) (p3 : vec3) (r z : R) (x : vec2)
  : result C :=
  dyn <- L_circleFunc_dynamic k p3 r z x ;;
  sta <- L_circleFunc_static p3 r z x ;;
  Ok (dyn - sta)%C.

(** The sum of the eight weights, and of the eight products weight times
    abscissa, of the table as it is written. *)
Definition weight_total : R := 1.00000000000038.
Definition weighted_abscissa_total : R := 0.5000000000002016412816733937.

(** The integrand that is 1 everywhere. *)
Definition one (_ : vec2) : result C := Ok (RtoC 1).

(** ** The static cone evaluation written out

    The value of the static on-element branch of [ComputeN], stated without
    the functions of the code: the regularised kernel in closed form, its
    weighted sum over the samples of the half-circle, and the sum of the
    baseline quadratures over the equal subsegments of each cone. *)









(** ** Sums used to state the values of the quadratures *)

(** The sum of the weights that [integrate] meets on [len] consecutive
    samples, the first of index [n]. *)
Fixpoint weight_sum (n len : nat) : R :=
  match len with
  | O => 0
  | S len' => weight (n mod samples_shape0) + weight_sum (S n) len'
  end.

(** The sum the substituted quadrature forms for an integrand without
    failure: weight times value at [start + abscissa^2 * vec] times abscissa,
    over the rows of the table in order. *)
Definition substituted_sum (f : vec2 -> C) (start vec : vec2) : C :=
  fold_left
    (fun sum row =>
       (sum + RtoC (snd row) * f (add2 start (scal2 (fst row ^ 2) vec))
              * RtoC (fst row))%C)
    samples (RtoC 0).

(** * Properties *)

(** ** Basic facts *)

Lemma C_eq (z w : C) : Re z = Re w -> Im z = Im w -> z = w.
Proof. destruct z, w; simpl; intros -> ->; reflexivity. Qed.

Ltac C_ring := apply C_eq; simpl; ring.

Lemma succeeds_Ok {A : Type} (a : A) : succeeds (Ok a).
Proof. exists a; reflexivity. Qed.

Lemma succeeds_not_Raise {A : Type} (m : result A) (e : exn) :
  succeeds m -> m <> Raise e.
Proof. intros [a ->]; discriminate. Qed.

Lemma succeeds_bind {A B : Type} (m : result A) (f : A -> result B) :
  succeeds m -> (forall a, succeeds (f a)) -> succeeds (bind m f).
Proof. intros [a ->] Hf; simpl; apply Hf. Qed.

Lemma Rabs_le_both (a b : R) : Rabs a <= b -> - b <= a <= b.
Proof. unfold Rabs; destruct (Rcase_abs a); lra. Qed.

Lemma samples_shape0_eq : samples_shape0 = 8%nat.
Proof. reflexivity. Qed.

Lemma V2_neq (a b c d : R) : a <> c \/ b <> d -> V2 a b <> V2 c d.
Proof. intros H E; injection E; intros; destruct H; contradiction. Qed.

(** ** The substituted-singularity quadrature on the constant 1 *)

Lemma ComplexQuadGenerator_one_value (start end_ : vec2) :
  ComplexQuadGenerator one start end_ =
  Ok (RtoC (2 * weighted_abscissa_total * norm2 (sub2 end_ start))).
Proof.
  unfold ComplexQuadGenerator, samples, one, weighted_abscissa_total.
  cbn [ComplexQuadGenerator_loop bind fst snd].
  f_equal. apply C_eq; cbn [Re Im RtoC Cadd Cmul]; lra.
Qed.

Lemma ComplexQuadGenerator_loop_pure (f : vec2 -> C) (start vec : vec2)
      (rows : list (R * R)) (sum : C) :
  ComplexQuadGenerator_loop (fun x => Ok (f x)) start vec rows sum =
  Ok (fold_left
        (fun sum row =>
           (sum + RtoC (snd row) * f (add2 start (scal2 (fst row ^ 2) vec))
                  * RtoC (fst row))%C)
        rows sum).
Proof.
  revert sum; induction rows as [|row rows IH]; intros sum; simpl.
  - reflexivity.
  - apply IH.
Qed.

Lemma norm2_unit_x : norm2 (sub2 (V2 1 0) (V2 0 0)) = 1.
Proof.
  unfold norm2, sub2; simpl.
  replace ((1 - 0) * (1 - 0) + (0 - 0) * (0 - 0)) with 1 by ring.
  apply sqrt_1.
Qed.

Lemma norm2_nonneg (v : vec2) : 0 <= norm2 v.
Proof. apply sqrt_pos. Qed.

(** C2, as amended: on the constant function 1 the substituted-singularity
    quadrature returns the length of the segment, [norm (end - start)], up to
    the rounding of the table (relative error below 1e-12), and not twice the
    length; for any integrand that does not fail it returns twice the length
    times the sum, over the eight rows, of weight times value times
    abscissa. *)
Theorem ComplexQuadGenerator_one_is_length (start end_ : vec2) :
  (forall f : vec2 -> C,
      ComplexQuadGenerator (fun x => Ok (f x)) start end_ =
      Ok (RtoC 2 * substituted_sum f start (sub2 end_ start)
          * RtoC (norm2 (sub2 end_ start)))%C)
  /\ exists v : C,
      ComplexQuadGenerator one start end_ = Ok v
      /\ Im v = 0
      /\ Rabs (Re v - norm2 (sub2 end_ start))
         <= 1e-12 * norm2 (sub2 end_ start).
Proof.
  split.
  - intros f. unfold ComplexQuadGenerator.
    rewrite ComplexQuadGenerator_loop_pure. reflexivity.
  - rewrite ComplexQuadGenerator_one_value.
    eexists; split; [reflexivity|]. split; [reflexivity|].
    cbn [Re RtoC]. unfold weighted_abscissa_total.
    pose proof (norm2_nonneg (sub2 end_ start)) as Hn.
    apply Rabs_le. lra.
Qed.

(** C2, as stated, fails on the segment from (0, 0) to (1, 0): the value is
    not within half the length of twice the length. *)
Lemma ComplexQuadGenerator_one_not_twice_length :
  ~ exists v : C,
      ComplexQuadGenerator one (V2 0 0) (V2 1 0) = Ok v
      /\ Rabs (Re v - 2 * norm2 (sub2 (V2 1 0) (V2 0 0)))
         <= / 2 * norm2 (sub2 (V2 1 0) (V2 0 0)).
Proof.
  intros [v [Hv Hclose]].
  rewrite ComplexQuadGenerator_one_value in Hv.
  injection Hv as <-.
  rewrite norm2_unit_x in Hclose. cbn [Re RtoC] in Hclose.
  unfold weighted_abscissa_total in Hclose.
  apply Rabs_le_both in Hclose. lra.
Qed.

(** ** The half-circle integrator *)

Lemma integrate_loop_one (rf : list vec2) (n : nat) (sum : C) :
  CircularIntegratorPi.integrate_loop one rf n sum =
  Ok (sum + RtoC (weight_sum n (List.length rf)))%C.
Proof.
  revert n sum; induction rf as [|x rf IH]; intros n sum.
  - simpl. f_equal. C_ring.
  - cbn [CircularIntegratorPi.integrate_loop one bind List.length weight_sum].
    rewrite IH. f_equal. C_ring.
Qed.

Lemma weight_sum_app (n a b : nat) :
  weight_sum n (a + b) = weight_sum n a + weight_sum (n + a) b.
Proof.
  revert n; induction a as [|a IH]; intros n.
  - simpl. rewrite Nat.add_0_r. ring.
  - cbn [Nat.add weight_sum]. rewrite IH.
    replace (S n + a)%nat with (n + S a)%nat by lia. ring.
Qed.

Lemma weight_sum_period (n len : nat) :
  weight_sum (n + samples_shape0) len = weight_sum n len.
Proof.
  revert n; induction len as [|len IH]; intros n.
  - reflexivity.
  - cbn [weight_sum].
    replace (S (n + samples_shape0)) with (S n + samples_shape0)%nat by lia.
    rewrite IH. f_equal. f_equal.
    rewrite samples_shape0_eq.
    replace (n + 8)%nat with (n + 1 * 8)%nat by lia.
    apply Nat.Div0.mod_add.
Qed.

Lemma weight_sum_first_panel : weight_sum 0 samples_shape0 = weight_total.
Proof.
  change samples_shape0 with 8%nat. cbn [weight_sum].
  change samples_shape0 with 8%nat.
  cbn [Nat.modulo Nat.divmod fst snd Nat.sub].
  unfold weight_total, weight, samples. cbn [nth fst snd].
  lra.
Qed.

Lemma weight_sum_panels (m : nat) :
  weight_sum 0 (m * samples_shape0) = INR m * weight_total.
Proof.
  induction m as [|m IH].
  - simpl. ring.
  - replace (S m * samples_shape0)%nat
      with (samples_shape0 + m * samples_shape0)%nat by lia.
    rewrite weight_sum_app, weight_sum_first_panel.
    rewrite (weight_sum_period 0), IH, S_INR. ring.
Qed.

Lemma init_positive (n : Z) :
  (1 <= n)%Z ->
  CircularIntegratorPi.init n =
  Ok (CircularIntegratorPi.Build n
        (map (CircularIntegratorPi.rotationFactor (PI / IZR n))
             (seq 0 (Z.to_nat n * samples_shape0)))).
Proof.
  intros Hn. unfold CircularIntegratorPi.init.
  destruct (Z.ltb_spec n 0); [lia|].
  destruct (Z.eqb_spec n 0); [lia|]. reflexivity.
Qed.

Lemma init_succeeds (n : Z) : (1 <= n)%Z -> succeeds (CircularIntegratorPi.init n).
Proof. intros Hn. rewrite init_positive by exact Hn. apply succeeds_Ok. Qed.

Lemma integrate_one_any_samples (n : Z) (rf : list vec2) :
  (1 <= n)%Z ->
  List.length rf = (Z.to_nat n * samples_shape0)%nat ->
  CircularIntegratorPi.integrate (CircularIntegratorPi.Build n rf) one =
  Ok (RtoC (weight_total * PI)).
Proof.
  intros Hn Hlen. unfold CircularIntegratorPi.integrate.
  cbn [CircularIntegratorPi.rotationFactors CircularIntegratorPi.segments].
  rewrite integrate_loop_one, Hlen, weight_sum_panels. cbn [bind].
  rewrite INR_IZR_INZ, Z2Nat.id by lia.
  f_equal. apply C_eq; cbn [Re Im RtoC Cadd Cmul Cdivr].
  - field. apply not_0_IZR. lia.
  - field. apply not_0_IZR. lia.
Qed.

(** C7: for every panel count [n >= 1] the half-circle integrator applied to
    the constant function 1 returns pi up to the rounding of the weight table
    (the exact value is the sum of the weights times pi, within 1e-12 of pi
    relatively), and it does so whatever the 8 n sample points are: the value
    is the same for every list of rotation factors of that length, the list
    the constructor builds included. *)
Theorem integrate_one_is_pi (n : Z) (Hn : (1 <= n)%Z) :
  (forall rf : list vec2,
      List.length rf = (Z.to_nat n * samples_shape0)%nat ->
      CircularIntegratorPi.integrate (CircularIntegratorPi.Build n rf) one =
      Ok (RtoC (weight_total * PI)))
  /\ (exists circle,
         CircularIntegratorPi.init n = Ok circle
         /\ CircularIntegratorPi.integrate circle one =
            Ok (RtoC (weight_total * PI)))
  /\ Rabs (weight_total * PI - PI) <= 1e-12 * PI.
Proof.
  split; [|split].
  - intros rf Hlen. apply integrate_one_any_samples; assumption.
  - eexists; split; [apply init_positive; exact Hn|].
    apply integrate_one_any_samples; [exact Hn|].
    rewrite length_map, length_seq. reflexivity.
  - pose proof PI_RGT_0 as Hpi. unfold weight_total.
    apply Rabs_le. split; nra.
Qed.

Lemma integrate_one_is_pi_witness :
  (1 <= 3)%Z
  /\ (exists circle,
         CircularIntegratorPi.init 3 = Ok circle
         /\ CircularIntegratorPi.integrate circle one =
            Ok (RtoC (weight_total * PI))).
Proof.
  split; [lia|]. apply (integrate_one_is_pi 3). lia.
Defined.

(** C3 at the panel count 1: the second sample of the integrator the
    constructor builds sits at the angle (1/8 + 0.898333238707) pi, beyond
    pi and so below the half-circle (negative sine), where the panel
    subdivision puts it at 0.898333238707 pi, on the half-circle. *)
Theorem second_sample_leaves_half_circle :
  exists circle,
    CircularIntegratorPi.init 1 = Ok circle
    /\ nth_error (CircularIntegratorPi.rotationFactors circle) 1 =
       Some (V2 (cos ((1 / 8 + 0.898333238707) * PI))
                (sin ((1 / 8 + 0.898333238707) * PI)))
    /\ PI < (1 / 8 + 0.898333238707) * PI
    /\ sin ((1 / 8 + 0.898333238707) * PI) < 0
    /\ panel_angle 1 1 = 0.898333238707 * PI
    /\ 0 < sin (panel_angle 1 1)
    /\ nth_error (CircularIntegratorPi.rotationFactors circle) 1 <>
       Some (panel_rotation 1 1).
Proof.
  pose proof PI_RGT_0 as Hpi.
  assert (Hcode : CircularIntegratorPi.rotationFactor (PI / 1) 1 =
                  V2 (cos ((1 / 8 + 0.898333238707) * PI))
                     (sin ((1 / 8 + 0.898333238707) * PI))).
  { unfold CircularIntegratorPi.rotationFactor, CircularIntegratorPi.arcAbscissa.
    change samples_shape0 with 8%nat.
    cbn [Nat.modulo Nat.divmod fst snd Nat.sub].
    unfold abscissa, samples. cbn [nth fst snd INR].
    replace (((1 / (1 + 1 + 1 + 1 + 1 + 1 + 1 + 1) + 0.898333238707) * (PI / 1)))
      with ((1 / 8 + 0.898333238707) * PI) by lra.
    reflexivity. }
  assert (Hspec : panel_angle 1 1 = 0.898333238707 * PI).
  { unfold panel_angle. change samples_shape0 with 8%nat.
    cbn [Nat.modulo Nat.divmod Nat.div fst snd Nat.sub].
    unfold abscissa, samples. cbn [nth fst snd INR]. lra. }
  assert (Hneg : sin ((1 / 8 + 0.898333238707) * PI) < 0).
  { apply sin_lt_0; lra. }
  assert (Hpos : 0 < sin (panel_angle 1 1)).
  { rewrite Hspec. apply sin_gt_0; lra. }
  eexists. split; [apply init_positive; lia|].
  change (Z.to_nat 1 * samples_shape0)%nat with 8%nat.
  cbn [CircularIntegratorPi.rotationFactors seq map nth_error].
  rewrite Hcode.
  repeat split; try assumption; try lra.
  unfold panel_rotation. intros E. injection E as _ Hsin. lra.
Qed.

(** ** The azimuthal segment count *)

Lemma norm2_zero_iff (v : vec2) : norm2 v = 0 -> x0 v = 0 /\ x1 v = 0.
Proof.
  unfold norm2. intros H.
  apply sqrt_eq_0 in H; [|nra].
  split; nra.
Qed.

Lemma element_length_nonzero (qa qb : vec2) :
  qa <> qb -> norm2 (sub2 qb qa) <> 0.
Proof.
  intros Hne H. apply norm2_zero_iff in H. destruct H as [H0 H1].
  apply Hne. destruct qa, qb; simpl in *. f_equal; lra.
Qed.

Lemma element_length_positive (qa qb : vec2) :
  qa <> qb -> 0 < norm2 (sub2 qb qa).
Proof.
  intros Hne. pose proof (norm2_nonneg (sub2 qb qa)).
  pose proof (element_length_nonzero qa qb Hne). lra.
Qed.

Lemma Int_part_nonneg (x : R) : 0 <= x -> (0 <= Int_part x)%Z.
Proof.
  intros Hx. destruct (base_Int_part x) as [_ Hlow].
  assert (H : (-1 < Int_part x)%Z) by (apply lt_IZR; lra). lia.
Qed.

Lemma py_int_nonneg (x : R) : 0 <= x -> py_int x = Int_part x.
Proof. intros Hx. unfold py_int. destruct (Rle_dec 0 x); [reflexivity|lra]. Qed.

Lemma quotient_nonneg (a b : R) : 0 <= a -> 0 < b -> 0 <= a / b.
Proof.
  intros Ha Hb. unfold Rdiv. apply Rmult_le_pos; [exact Ha|].
  left. apply Rinv_0_lt_compat. exact Hb.
Qed.

Lemma int_of_quotient_nonneg (a b : R) :
  0 <= a -> 0 < b -> int_of_quotient a b = Ok (Int_part (a / b)).
Proof.
  intros Ha Hb. unfold int_of_quotient.
  destruct (Req_dec_T b 0); [lra|].
  rewrite py_int_nonneg by (apply quotient_nonneg; assumption). reflexivity.
Qed.

Lemma nSections_of_valid (qa qb : vec2) :
  qa <> qb -> 0 <= x0 qa -> 0 <= x0 qb ->
  nSections_of qa qb = Ok (derived_segment_count qa qb)
  /\ (1 <= derived_segment_count qa qb)%Z.
Proof.
  intros Hne Ha Hb.
  pose proof (element_length_positive qa qb Hne) as Hlen.
  pose proof PI_RGT_0 as Hpi.
  assert (Hq : 0 <= x0 (scal2 0.5 (add2 qa qb)) * PI).
  { cbn [x0 scal2 add2]. apply Rmult_le_pos; lra. }
  unfold nSections_of, derived_segment_count.
  rewrite int_of_quotient_nonneg by assumption. cbn [bind].
  split; [reflexivity|].
  pose proof (Int_part_nonneg _ (quotient_nonneg _ _ Hq Hlen)). lia.
Qed.

(** C10: for an element with [qa <> qb] and non-negative radial coordinates
    the segment count that the evaluators derive is computed without error,
    equals one plus the integer floor of (midpoint radial coordinate times pi
    over element length), and is at least 1; the half-circle integrators built
    from it, with that count or with twice that count, are constructed
    without error. *)
Theorem nSections_at_least_one (qa qb : vec2)
        (Hne : qa <> qb) (Ha : 0 <= x0 qa) (Hb : 0 <= x0 qb) :
  exists n : Z,
    nSections_of qa qb = Ok n
    /\ n = derived_segment_count qa qb
    /\ (1 <= n)%Z
    /\ (1 <= 2 * n)%Z
    /\ succeeds (CircularIntegratorPi.init n)
    /\ succeeds (CircularIntegratorPi.init (2 * n)).
Proof.
  destruct (nSections_of_valid qa qb Hne Ha Hb) as [Heq Hge].
  exists (derived_segment_count qa qb).
  repeat split; try assumption; try lia; apply init_succeeds; lia.
Qed.

Lemma nSections_at_least_one_witness :
  exists n : Z,
    nSections_of (V2 1 0) (V2 2 0) = Ok n
    /\ n = derived_segment_count (V2 1 0) (V2 2 0)
    /\ (1 <= n)%Z
    /\ (1 <= 2 * n)%Z
    /\ succeeds (CircularIntegratorPi.init n)
    /\ succeeds (CircularIntegratorPi.init (2 * n)).
Proof.
  apply (nSections_at_least_one (V2 1 0) (V2 2 0)).
  - apply V2_neq. left. lra.
  - simpl. lra.
  - simpl. lra.
Defined.

(** ** Calls that return *)

Lemma integrate_loop_succeeds (func : vec2 -> result C) (rf : list vec2)
      (n : nat) (sum : C) :
  (forall x, succeeds (func x)) ->
  succeeds (CircularIntegratorPi.integrate_loop func rf n sum).
Proof.
  intros Hf. revert n sum; induction rf as [|x rf IH]; intros n sum; simpl.
  - apply succeeds_Ok.
  - apply succeeds_bind; [apply Hf|]. intros v. apply IH.
Qed.

Lemma generatorFunc_succeeds (n : Z) (p : vec2)
      (circleFunc : vec3 -> R -> R -> vec2 -> result C) (x : vec2) :
  (1 <= n)%Z ->
  (forall p3 r z y, succeeds (circleFunc p3 r z y)) ->
  succeeds (generatorFunc n p circleFunc x).
Proof.
  intros Hn Hc. unfold generatorFunc.
  rewrite init_positive by exact Hn. cbn [bind].
  unfold CircularIntegratorPi.integrate.
  apply succeeds_bind.
  - apply succeeds_bind.
    + apply integrate_loop_succeeds. intros y. apply Hc.
    + intros s. apply succeeds_Ok.
  - intros v. apply succeeds_Ok.
Qed.

Lemma ComplexQuad_loop_succeeds (func : vec2 -> result C) (start vec : vec2)
      (rows : list (R * R)) (sum : C) :
  (forall x, succeeds (func x)) ->
  succeeds (ComplexQuad_loop func start vec rows sum).
Proof.
  intros Hf. revert sum; induction rows as [|row rows IH]; intros sum; simpl.
  - apply succeeds_Ok.
  - apply succeeds_bind; [apply Hf|]. intros v. apply IH.
Qed.

Lemma ComplexQuad_succeeds (func : vec2 -> result C) (start end_ : vec2) :
  (forall x, succeeds (func x)) -> succeeds (ComplexQuad func start end_).
Proof.
  intros Hf. unfold ComplexQuad. apply succeeds_bind.
  - apply ComplexQuad_loop_succeeds, Hf.
  - intros s. apply succeeds_Ok.
Qed.

Lemma ComplexQuadGenerator_loop_succeeds (func : vec2 -> result C)
      (start vec : vec2) (rows : list (R * R)) (sum : C) :
  (forall x, succeeds (func x)) ->
  succeeds (ComplexQuadGenerator_loop func start vec rows sum).
Proof.
  intros Hf. revert sum; induction rows as [|row rows IH]; intros sum; simpl.
  - apply succeeds_Ok.
  - apply succeeds_bind; [apply Hf|]. intros v. apply IH.
Qed.

Lemma ComplexQuadGenerator_succeeds (func : vec2 -> result C)
      (start end_ : vec2) :
  (forall x, succeeds (func x)) ->
  succeeds (ComplexQuadGenerator func start end_).
Proof.
  intros Hf. unfold ComplexQuadGenerator. apply succeeds_bind.
  - apply ComplexQuadGenerator_loop_succeeds, Hf.
  - intros s. apply succeeds_Ok.
Qed.

Lemma ComplexQuadCone_loop_succeeds (func : vec2 -> result C)
      (start delta : vec2) (ss : list nat) (sum : C) :
  (forall x, succeeds (func x)) ->
  succeeds (ComplexQuadCone_loop func start delta ss sum).
Proof.
  intros Hf. revert sum; induction ss as [|s ss IH]; intros sum; simpl.
  - apply succeeds_Ok.
  - apply succeeds_bind; [apply ComplexQuad_succeeds, Hf|]. intros v. apply IH.
Qed.

Lemma ComplexQuadCone_succeeds (func : vec2 -> result C) (start end_ : vec2)
      (segments : Z) :
  segments <> 0%Z ->
  (forall x, succeeds (func x)) ->
  succeeds (ComplexQuadCone func start end_ segments).
Proof.
  intros Hs Hf. unfold ComplexQuadCone.
  destruct (Z.eqb_spec segments 0); [contradiction|].
  apply ComplexQuadCone_loop_succeeds, Hf.
Qed.

(** ** ComputeL *)

Lemma ComputeL_body_static_on
      (self : R -> vec2 -> vec2 -> vec2 -> bool -> result C) (p qa qb : vec2) :
  ComputeL_body self 0 p qa qb true =
  (n <- nSections_of qa qb ;;
   a <- ComplexQuadGenerator
          (generatorFunc (2 * n) p L_circleFunc_static) p qa ;;
   b <- ComplexQuadGenerator
          (generatorFunc (2 * n) p L_circleFunc_static) p qb ;;
   Ok (a + b)%C).
Proof.
  unfold ComputeL_body. destruct (Req_dec_T 0 0) as [_|H]; [reflexivity|].
  exfalso; apply H; reflexivity.
Qed.

Lemma ComputeL_static_on (p qa qb : vec2) :
  ComputeL 0 p qa qb true =
  (n <- nSections_of qa qb ;;
   a <- ComplexQuadGenerator
          (generatorFunc (2 * n) p L_circleFunc_static) p qa ;;
   b <- ComplexQuadGenerator
          (generatorFunc (2 * n) p L_circleFunc_static) p qb ;;
   Ok (a + b)%C).
Proof. unfold ComputeL. apply ComputeL_body_static_on. Qed.

Lemma ComputeL_dynamic_on (k : R) (p qa qb : vec2) :
  k <> 0 ->
  ComputeL k p qa qb true =
  (n <- nSections_of qa qb ;;
   a <- ComputeL 0 p qa qb true ;;
   b <- ComplexQuad (generatorFunc (2 * n) p (L_circleFunc_regular k)) qa qb ;;
   Ok (a + b)%C).
Proof.
  intros Hk. unfold ComputeL at 1. unfold ComputeL_body at 1.
  destruct (Req_dec_T k 0) as [E|_]; [contradiction|].
  rewrite ComputeL_body_static_on, <- ComputeL_static_on. reflexivity.
Qed.

Lemma ComputeL_dynamic_off (k : R) (p qa qb : vec2) :
  k <> 0 ->
  ComputeL k p qa qb false =
  (n <- nSections_of qa qb ;;
   ComplexQuad (generatorFunc n p (L_circleFunc_dynamic k)) qa qb).
Proof.
  intros Hk. unfold ComputeL, ComputeL_body at 1.
  destruct (Req_dec_T k 0) as [E|_]; [contradiction|]. reflexivity.
Qed.

Lemma L_circleFunc_static_succeeds p3 r z x :
  succeeds (L_circleFunc_static p3 r z x).
Proof. apply succeeds_Ok. Qed.

Lemma L_circleFunc_regular_succeeds k p3 r z x :
  succeeds (L_circleFunc_regular k p3 r z x).
Proof. apply succeeds_Ok. Qed.

Lemma L_circleFunc_dynamic_succeeds k p3 r z x :
  succeeds (L_circleFunc_dynamic k p3 r z x).
Proof. apply succeeds_Ok. Qed.

Lemma ComputeL_static_on_succeeds (p qa qb : vec2) :
  qa <> qb -> 0 <= x0 qa -> 0 <= x0 qb ->
  succeeds (ComputeL 0 p qa qb true).
Proof.
  intros Hne Ha Hb. rewrite ComputeL_static_on.
  destruct (nSections_of_valid qa qb Hne Ha Hb) as [-> Hge]. cbn [bind].
  assert (Hgen : forall x, succeeds
            (generatorFunc (2 * derived_segment_count qa qb) p
               L_circleFunc_static x)).
  { intros x. apply generatorFunc_succeeds; [lia|].
    apply L_circleFunc_static_succeeds. }
  apply succeeds_bind; [apply ComplexQuadGenerator_succeeds, Hgen|]. intros a.
  apply succeeds_bind; [apply ComplexQuadGenerator_succeeds, Hgen|]. intros b.
  apply succeeds_Ok.
Qed.

Lemma ComputeL_dynamic_succeeds (k : R) (p qa qb : vec2) (pOnElement : bool) :
  k <> 0 -> qa <> qb -> 0 <= x0 qa -> 0 <= x0 qb ->
  succeeds (ComputeL k p qa qb pOnElement).
Proof.
  intros Hk Hne Ha Hb. destruct pOnElement.
  - rewrite ComputeL_dynamic_on by exact Hk.
    destruct (nSections_of_valid qa qb Hne Ha Hb) as [-> Hge]. cbn [bind].
    apply succeeds_bind; [apply ComputeL_static_on_succeeds; assumption|].
    intros a. apply succeeds_bind; [|intros b; apply succeeds_Ok].
    apply ComplexQuad_succeeds. intros x.
    apply generatorFunc_succeeds; [lia|]. apply L_circleFunc_regular_succeeds.
  - rewrite ComputeL_dynamic_off by exact Hk.
    destruct (nSections_of_valid qa qb Hne Ha Hb) as [-> Hge]. cbn [bind].
    apply ComplexQuad_succeeds. intros x.
    apply generatorFunc_succeeds; [lia|]. apply L_circleFunc_dynamic_succeeds.
Qed.

(** Pointwise equal integrands give equal quadratures. *)

Lemma integrate_loop_ext (f g : vec2 -> result C) (rf : list vec2) (n : nat)
      (sum : C) :
  (forall x, f x = g x) ->
  CircularIntegratorPi.integrate_loop f rf n sum =
  CircularIntegratorPi.integrate_loop g rf n sum.
Proof.
  intros H. revert n sum; induction rf as [|x rf IH]; intros n sum; simpl.
  - reflexivity.
  - rewrite H. destruct (g x); simpl; [apply IH|reflexivity].
Qed.

Lemma generatorFunc_ext (n : Z) (p : vec2)
      (cf cg : vec3 -> R -> R -> vec2 -> result C) (x : vec2) :
  (forall p3 r z y, cf p3 r z y = cg p3 r z y) ->
  generatorFunc n p cf x = generatorFunc n p cg x.
Proof.
  intros H. unfold generatorFunc.
  destruct (CircularIntegratorPi.init n) as [circle|e]; [|reflexivity].
  cbn [bind]. unfold CircularIntegratorPi.integrate.
  rewrite (integrate_loop_ext _ (cg (lift3 p) (x0 x) (x1 x)))
    by (intros y; apply H).
  reflexivity.
Qed.

Lemma ComplexQuad_loop_ext (f g : vec2 -> result C) (start vec : vec2)
      (rows : list (R * R)) (sum : C) :
  (forall x, f x = g x) ->
  ComplexQuad_loop f start vec rows sum = ComplexQuad_loop g start vec rows sum.
Proof.
  intros H. revert sum; induction rows as [|row rows IH]; intros sum; simpl.
  - reflexivity.
  - rewrite H. destruct (g _); simpl; [apply IH|reflexivity].
Qed.

Lemma ComplexQuad_ext (f g : vec2 -> result C) (start end_ : vec2) :
  (forall x, f x = g x) -> ComplexQuad f start end_ = ComplexQuad g start end_.
Proof.
  intros H. unfold ComplexQuad.
  rewrite (ComplexQuad_loop_ext f g) by exact H. reflexivity.
Qed.

Lemma Cexp_ikR (k RR : R) : Cexp (ikR k RR) = mkC (cos (k * RR)) (sin (k * RR)).
Proof.
  unfold Cexp, ikR. cbn [Re Im Ci RtoC Cmul].
  replace ((0 * k - 1 * 0) * RR - (0 * 0 + 1 * k) * 0) with 0 by ring.
  replace ((0 * k - 1 * 0) * 0 + (0 * 0 + 1 * k) * RR) with (k * RR) by ring.
  rewrite exp_0. f_equal; ring.
Qed.

Lemma L_circleFunc_regular_correction (k : R) (p3 : vec3) (r z : R) (x : vec2) :
  L_circleFunc_regular k p3 r z x = L_correction_kernel k p3 r z x.
Proof.
  unfold L_circleFunc_regular, L_correction_kernel, L_circleFunc_dynamic,
    L_circleFunc_static. cbn [bind]. f_equal.
  apply C_eq; cbn [Re Im RtoC Csub Cdivr]; unfold Rdiv; ring.
Qed.

(** C6: for [k <> 0] and [p] on the element, [ComputeL] is its own value at
    [k = 0] plus the baseline quadrature over [qa, qb] of the azimuthal
    average (over an integrator of twice the derived segment count) of the
    correction kernel, the dynamic kernel minus the static one, whose value at
    distance [R] is [(exp(i k R) - 1) / R], that is
    [((cos (k R) - 1) / R, sin (k R) / R)]. *)
Theorem ComputeL_static_plus_correction (k : R) (p qa qb : vec2) (Hk : k <> 0) :
  ComputeL k p qa qb true =
  (n <- nSections_of qa qb ;;
   a <- ComputeL 0 p qa qb true ;;
   b <- ComplexQuad (generatorFunc (2 * n) p (L_correction_kernel k)) qa qb ;;
   Ok (a + b)%C)
  /\ forall (p3 : vec3) (r z : R) (x : vec2),
      let RR := norm3 (sub3 (ring_point r z x) p3) in
      L_correction_kernel k p3 r z x =
      Ok (mkC ((cos (k * RR) - 1) / RR) (sin (k * RR) / RR)).
Proof.
  split.
  - rewrite ComputeL_dynamic_on by exact Hk.
    destruct (nSections_of qa qb) as [n|e]; [|reflexivity]. cbn [bind].
    destruct (ComputeL 0 p qa qb true) as [a|e]; [|reflexivity]. cbn [bind].
    rewrite (ComplexQuad_ext _
               (generatorFunc (2 * n) p (L_correction_kernel k))).
    + reflexivity.
    + intros x. apply generatorFunc_ext. intros p3 r z y.
      apply L_circleFunc_regular_correction.
  - intros p3 r z x RR.
    rewrite <- L_circleFunc_regular_correction.
    unfold L_circleFunc_regular. fold RR. rewrite Cexp_ikR. f_equal.
    apply C_eq; cbn [Re Im RtoC Csub Cdivr]; unfold Rdiv; ring.
Qed.

Lemma ComputeL_static_plus_correction_witness :
  ComputeL 1 (V2 1.5 0) (V2 1 0) (V2 2 0) true =
  (n <- nSections_of (V2 1 0) (V2 2 0) ;;
   a <- ComputeL 0 (V2 1.5 0) (V2 1 0) (V2 2 0) true ;;
   b <- ComplexQuad (generatorFunc (2 * n) (V2 1.5 0) (L_correction_kernel 1))
          (V2 1 0) (V2 2 0) ;;
   Ok (a + b)%C).
Proof.
  apply (ComputeL_static_plus_correction 1 (V2 1.5 0) (V2 1 0) (V2 2 0)). lra.
Defined.

(** C8: for [k = 0] and [p] on the element, [ComputeL] is the sum of two
    substituted-singularity quadratures, one from [p] to [qa] and one from
    [p] to [qb], so that [p], where the kernel is singular, is the start point
    of both; both integrate the azimuthal average taken with an integrator of
    twice the derived segment count.  Every sample point of a piece is
    [p + t (q - p)] with [t] the square of an abscissa, strictly between 0
    and 1. *)
Theorem ComputeL_static_split_at_p (p qa qb : vec2) :
  ComputeL 0 p qa qb true =
  (n <- nSections_of qa qb ;;
   a <- ComplexQuadGenerator
          (generatorFunc (2 * n) p L_circleFunc_static) p qa ;;
   b <- ComplexQuadGenerator
          (generatorFunc (2 * n) p L_circleFunc_static) p qb ;;
   Ok (a + b)%C)
  /\ (forall (f : vec2 -> C) (q : vec2),
         ComplexQuadGenerator (fun x => Ok (f x)) p q =
         Ok (RtoC 2 * substituted_sum f p (sub2 q p)
             * RtoC (norm2 (sub2 q p)))%C)
  /\ Forall (fun row => 0 < fst row ^ 2 < 1) samples.
Proof.
  split; [apply ComputeL_static_on|]. split.
  - intros f q. unfold ComplexQuadGenerator.
    rewrite ComplexQuadGenerator_loop_pure. reflexivity.
  - unfold samples. repeat constructor; cbn [fst]; lra.
Qed.

(** ** ComputeMt *)

Lemma Mt_circleFunc_static_raises (k : R) (p vecp qa qb : vec2)
      (pOnElement : bool) (nSections : Z) (p3 : vec3) (r z : R) (x : vec2) :
  Mt_circleFunc_static k p vecp qa qb pOnElement nSections p3 r z x =
  Raise (NameError "vec").
Proof. reflexivity. Qed.

Lemma integrate_loop_raises (func : vec2 -> result C) (e : exn)
      (x : vec2) (rf : list vec2) (n : nat) (sum : C) :
  (forall y, func y = Raise e) ->
  CircularIntegratorPi.integrate_loop func (x :: rf) n sum = Raise e.
Proof. intros H. cbn [CircularIntegratorPi.integrate_loop]. rewrite H. reflexivity. Qed.

Lemma generatorFunc_raises (n : Z) (p : vec2)
      (circleFunc : vec3 -> R -> R -> vec2 -> result C) (e : exn) (x : vec2) :
  (1 <= n)%Z ->
  (forall p3 r z y, circleFunc p3 r z y = Raise e) ->
  generatorFunc n p circleFunc x = Raise e.
Proof.
  intros Hn Hc. unfold generatorFunc.
  rewrite init_positive by exact Hn. cbn [bind].
  unfold CircularIntegratorPi.integrate.
  cbn [CircularIntegratorPi.rotationFactors].
  destruct (Z.to_nat n) as [|m] eqn:Hm; [lia|].
  change (S m * samples_shape0)%nat with (S (7 + m * 8)).
  cbn [seq map]. rewrite (integrate_loop_raises _ e) by (intros y; apply Hc).
  reflexivity.
Qed.

Lemma ComplexQuad_raises (func : vec2 -> result C) (e : exn)
      (start end_ : vec2) :
  (forall x, func x = Raise e) -> ComplexQuad func start end_ = Raise e.
Proof.
  intros H. unfold ComplexQuad, samples. cbn [ComplexQuad_loop].
  rewrite H. reflexivity.
Qed.

Lemma ComputeMt_static_raises (p vecp qa qb : vec2) (pOnElement : bool) :
  qa <> qb -> 0 <= x0 qa -> 0 <= x0 qb ->
  ComputeMt 0 p vecp qa qb pOnElement = Raise (NameError "vec").
Proof.
  intros Hne Ha Hb. unfold ComputeMt.
  destruct (nSections_of_valid qa qb Hne Ha Hb) as [-> Hge]. cbn [bind].
  destruct (Req_dec_T 0 0) as [_|H]; [|exfalso; apply H; reflexivity].
  assert (Hgen : forall x,
    generatorFunc (derived_segment_count qa qb) p
      (Mt_circleFunc_static 0 p vecp qa qb pOnElement
         (derived_segment_count qa qb)) x = Raise (NameError "vec")).
  { intros x. apply generatorFunc_raises; [exact Hge|].
    intros p3 r z y. apply Mt_circleFunc_static_raises. }
  destruct pOnElement.
  - rewrite (ComplexQuad_raises _ _ qa p Hgen). reflexivity.
  - apply ComplexQuad_raises, Hgen.
Qed.

(** C1 at k = 0, p = (5, 3), vecp = (0, 1), qa = (1, 0), qb = (2, 0), p off
    the element: the call does not return a value; the static integrand reads
    the name [vec], which no scope binds, and the call ends in
    [NameError]. *)
Theorem ComputeMt_static_NameError :
  ComputeMt 0 (V2 5 3) (V2 0 1) (V2 1 0) (V2 2 0) false =
  Raise (NameError "vec").
Proof.
  apply ComputeMt_static_raises.
  - apply V2_neq. left. lra.
  - simpl. lra.
  - simpl. lra.
Qed.

Lemma ComputeMt_dynamic_succeeds (k : R) (p vecp qa qb : vec2)
      (pOnElement : bool) :
  k <> 0 -> qa <> qb -> 0 <= x0 qa -> 0 <= x0 qb ->
  succeeds (ComputeMt k p vecp qa qb pOnElement).
Proof.
  intros Hk Hne Ha Hb. unfold ComputeMt.
  destruct (nSections_of_valid qa qb Hne Ha Hb) as [-> Hge]. cbn [bind].
  destruct (Req_dec_T k 0) as [E|_]; [contradiction|].
  assert (Hgen : forall x, succeeds
    (generatorFunc (derived_segment_count qa qb) p
       (Mt_circleFunc_dynamic k vecp) x)).
  { intros x. apply generatorFunc_succeeds; [exact Hge|].
    intros p3 r z y. apply succeeds_Ok. }
  destruct pOnElement.
  - apply succeeds_bind; [apply ComplexQuad_succeeds, Hgen|]. intros a.
    apply succeeds_bind; [apply ComplexQuad_succeeds, Hgen|]. intros b.
    apply succeeds_Ok.
  - apply ComplexQuad_succeeds, Hgen.
Qed.

(** ** ComputeM *)

Lemma ComputeM_succeeds (Normal2D : vec2 -> vec2 -> vec2) (k : R)
      (p qa qb : vec2) (pOnElement : bool) :
  qa <> qb -> 0 <= x0 qa -> 0 <= x0 qb ->
  succeeds (ComputeM Normal2D k p qa qb pOnElement).
Proof.
  intros Hne Ha Hb. unfold ComputeM.
  destruct (nSections_of_valid qa qb Hne Ha Hb) as [-> Hge]. cbn [bind].
  destruct (Req_dec_T k 0) as [E|E].
  - assert (Hgen : forall x, succeeds
      (generatorFunc (derived_segment_count qa qb) p
         (M_circleFunc_static (Normal2D qa qb)) x)).
    { intros x. apply generatorFunc_succeeds; [exact Hge|].
      intros p3 r z y. apply succeeds_Ok. }
    destruct pOnElement.
    + apply succeeds_bind; [apply ComplexQuad_succeeds, Hgen|]. intros a.
      apply succeeds_bind; [apply ComplexQuad_succeeds, Hgen|]. intros b.
      apply succeeds_Ok.
    + apply ComplexQuad_succeeds, Hgen.
  - assert (Hgen : forall x, succeeds
      (generatorFunc (derived_segment_count qa qb) p
         (M_circleFunc_dynamic k (Normal2D qa qb)) x)).
    { intros x. apply generatorFunc_succeeds; [exact Hge|].
      intros p3 r z y. apply succeeds_Ok. }
    destruct pOnElement.
    + apply succeeds_bind; [apply ComplexQuad_succeeds, Hgen|]. intros a.
      apply succeeds_bind; [apply ComplexQuad_succeeds, Hgen|]. intros b.
      apply succeeds_Ok.
    + apply ComplexQuad_succeeds, Hgen.
Qed.

(** ** ComputeN *)

Lemma direction_choice (d tie : R) :
  (if Req_dec_T (np_sign d) 0 then tie else np_sign d) = apex_direction d tie.
Proof.
  unfold np_sign, apex_direction.
  destruct (Rlt_dec d 0), (Rlt_dec 0 d); try lra;
    destruct (Req_dec_T _ 0); try lra; reflexivity.
Qed.



Lemma cone_segment_count_valid (q : vec2) (len : R) :
  0 <= x0 q -> 0 < len ->
  int_of_quotient (x0 q * sqrt 2) len = Ok (Int_part (x0 q * sqrt 2 / len))
  /\ (1 <= cone_segment_count q len)%Z.
Proof.
  intros Hq Hlen.
  assert (H : 0 <= x0 q * sqrt 2).
  { apply Rmult_le_pos; [exact Hq|apply sqrt_pos]. }
  split; [apply int_of_quotient_nonneg; assumption|].
  unfold cone_segment_count.
  pose proof (Int_part_nonneg _ (quotient_nonneg _ _ H Hlen)). lia.
Qed.

Lemma ComputeN_body_static_on (Normal2D : vec2 -> vec2 -> vec2)
      (self : R -> vec2 -> vec2 -> vec2 -> vec2 -> bool -> result C)
      (p vecp qa qb : vec2) :
  qa <> qb -> 0 <= x0 qa -> 0 <= x0 qb ->
  ComputeN_body Normal2D self 0 p vecp qa qb true = static_cone_sum p vecp qa qb.
Proof.
  intros Hne Ha Hb.
  pose proof (element_length_positive qa qb Hne) as Hlen.
  unfold ComputeN_body, static_cone_sum. cbv zeta.
  destruct (nSections_of_valid qa qb Hne Ha Hb) as [-> Hge]. cbn [bind].
  destruct (Req_dec_T 0 0) as [_|H]; [|exfalso; apply H; reflexivity].
  rewrite !direction_choice.
  destruct (cone_segment_count_valid qa _ Ha Hlen) as [-> _].
  destruct (cone_segment_count_valid qb _ Hb Hlen) as [-> _].
  reflexivity.
Qed.

Lemma ComputeN_body_static_on_self (Normal2D : vec2 -> vec2 -> vec2)
      (self self' : R -> vec2 -> vec2 -> vec2 -> vec2 -> bool -> result C)
      (p vecp qa qb : vec2) :
  ComputeN_body Normal2D self 0 p vecp qa qb true =
  ComputeN_body Normal2D self' 0 p vecp qa qb true.
Proof.
  unfold ComputeN_body.
  destruct (Req_dec_T 0 0) as [_|H]; [reflexivity|].
  exfalso; apply H; reflexivity.
Qed.

Lemma coneFunc_succeeds (n : Z) (p : vec2) (vecp3 : vec3) (x : vec2)
      (direction : R) :
  (1 <= n)%Z -> succeeds (coneFunc n p vecp3 x direction).
Proof.
  intros Hn. unfold coneFunc. apply generatorFunc_succeeds; [exact Hn|].
  intros p3 r z y. apply succeeds_Ok.
Qed.

Lemma static_cone_sum_succeeds (p vecp qa qb : vec2) :
  qa <> qb -> 0 <= x0 qa -> 0 <= x0 qb ->
  succeeds (static_cone_sum p vecp qa qb).
Proof.
  intros Hne Ha Hb.
  pose proof (element_length_positive qa qb Hne) as Hlen.
  destruct (nSections_of_valid qa qb Hne Ha Hb) as [_ Hge].
  destruct (cone_segment_count_valid qa _ Ha Hlen) as [_ HnA].
  destruct (cone_segment_count_valid qb _ Hb Hlen) as [_ HnB].
  unfold static_cone_sum. cbv zeta.
  apply succeeds_bind.
  { apply ComplexQuadCone_succeeds; [lia|].
    intros x. apply coneFunc_succeeds, Hge. }
  intros a. apply succeeds_bind.
  { apply ComplexQuadCone_succeeds; [lia|].
    intros x. apply coneFunc_succeeds, Hge. }
  intros b. apply succeeds_Ok.
Qed.

(** The static cone evaluation, written out. *)
















Lemma N_circleFunc_regular_correction (k : R) (vecp vec_q : vec2) (p3 : vec3)
      (r z : R) (x : vec2) :
  N_circleFunc_regular k vecp vec_q p3 r z x =
  N_correction_kernel k vecp vec_q p3 r z x.
Proof.
  unfold N_circleFunc_regular, N_correction_kernel, N_circleFunc_dynamic,
    N_circleFunc_static. cbv zeta. cbn [bind]. f_equal.
  generalize (Cexp (ikR k (norm3 (sub3 (ring_point r z x) p3)))) as E.
  generalize (ikR k (norm3 (sub3 (ring_point r z x) p3))) as I.
  intros I E.
  apply C_eq; cbn [Re Im RtoC Cadd Csub Cmul Cdivr]; unfold Rdiv; ring.
Qed.

Lemma ComputeN_dynamic_on (Normal2D : vec2 -> vec2 -> vec2) (k : R)
      (p vecp qa qb : vec2) :
  k <> 0 ->
  ComputeN Normal2D k p vecp qa qb true =
  (n <- nSections_of qa qb ;;
   a <- ComputeN Normal2D 0 p vecp qa qb true ;;
   b <- ComputeL 0 p qa qb true ;;
   c <- ComplexQuad
          (generatorFunc n p (N_circleFunc_regular k vecp (Normal2D qa qb)))
          qa p ;;
   d <- ComplexQuad
          (generatorFunc n p (N_circleFunc_regular k vecp (Normal2D qa qb)))
          p qb ;;
   Ok (a - (RtoC (k ^ 2) * b) /r 2 + c + d)%C).
Proof.
  intros Hk. unfold ComputeN at 1. unfold ComputeN_body at 1. cbv zeta.
  destruct (Req_dec_T k 0) as [E|_]; [contradiction|].
  unfold ComputeN.
  rewrite (ComputeN_body_static_on_self Normal2D
             (fun _ _ _ _ _ _ => no_recursion)
             (ComputeN_body Normal2D (fun _ _ _ _ _ _ => no_recursion))).
  reflexivity.
Qed.

(** C5: for [k <> 0] and [p] on the element, [ComputeN] is its own value at
    [k = 0], minus [k^2 / 2] times the value of [ComputeL] at [k = 0], plus
    the baseline quadratures over [qa, p] and over [p, qb] of the azimuthal
    average of the correction kernel: the dynamic kernel minus the static
    one, plus [k^2 / 2 * (1 / R)]. *)
Theorem ComputeN_static_plus_correction (Normal2D : vec2 -> vec2 -> vec2)
        (k : R) (p vecp qa qb : vec2) (Hk : k <> 0) :
  ComputeN Normal2D k p vecp qa qb true =
  (n <- nSections_of qa qb ;;
   a <- ComputeN Normal2D 0 p vecp qa qb true ;;
   b <- ComputeL 0 p qa qb true ;;
   c <- ComplexQuad
          (generatorFunc n p (N_correction_kernel k vecp (Normal2D qa qb)))
          qa p ;;
   d <- ComplexQuad
          (generatorFunc n p (N_correction_kernel k vecp (Normal2D qa qb)))
          p qb ;;
   Ok (a - RtoC (k ^ 2 / 2) * b + c + d)%C).
Proof.
  rewrite ComputeN_dynamic_on by exact Hk.
  destruct (nSections_of qa qb) as [n|e]; [|reflexivity]. cbn [bind].
  destruct (ComputeN Normal2D 0 p vecp qa qb true) as [a|e]; [|reflexivity].
  cbn [bind].
  destruct (ComputeL 0 p qa qb true) as [b|e]; [|reflexivity]. cbn [bind].
  assert (Hgen : forall x,
    generatorFunc n p (N_circleFunc_regular k vecp (Normal2D qa qb)) x =
    generatorFunc n p (N_correction_kernel k vecp (Normal2D qa qb)) x).
  { intros x. apply generatorFunc_ext. intros p3 r z y.
    apply N_circleFunc_regular_correction. }
  rewrite (ComplexQuad_ext _ _ qa p Hgen), (ComplexQuad_ext _ _ p qb Hgen).
  destruct (ComplexQuad _ qa p) as [c|e]; [|reflexivity]. cbn [bind].
  destruct (ComplexQuad _ p qb) as [d|e]; [|reflexivity]. cbn [bind].
  f_equal. apply C_eq; cbn [Re Im RtoC Cadd Csub Cmul Cdivr]; field.
Qed.

Lemma ComputeN_static_plus_correction_witness :
  ComputeN (fun _ _ => V2 0 1) 1 (V2 1.5 0) (V2 0 1) (V2 1 0) (V2 2 0) true =
  (n <- nSections_of (V2 1 0) (V2 2 0) ;;
   a <- ComputeN (fun _ _ => V2 0 1) 0 (V2 1.5 0) (V2 0 1) (V2 1 0) (V2 2 0)
          true ;;
   b <- ComputeL 0 (V2 1.5 0) (V2 1 0) (V2 2 0) true ;;
   c <- ComplexQuad
          (generatorFunc n (V2 1.5 0)
             (N_correction_kernel 1 (V2 0 1) (V2 0 1)))
          (V2 1 0) (V2 1.5 0) ;;
   d <- ComplexQuad
          (generatorFunc n (V2 1.5 0)
             (N_correction_kernel 1 (V2 0 1) (V2 0 1)))
          (V2 1.5 0) (V2 2 0) ;;
   Ok (a - RtoC (1 ^ 2 / 2) * b + c + d)%C).
Proof.
  apply (ComputeN_static_plus_correction (fun _ _ => V2 0 1) 1
           (V2 1.5 0) (V2 0 1) (V2 1 0) (V2 2 0)).
  lra.
Defined.

Lemma ComputeN_dynamic_off (Normal2D : vec2 -> vec2 -> vec2) (k : R)
      (p vecp qa qb : vec2) :
  k <> 0 ->
  ComputeN Normal2D k p vecp qa qb false =
  (n <- nSections_of qa qb ;;
   ComplexQuad
     (generatorFunc n p (N_circleFunc_dynamic k vecp (Normal2D qa qb))) qa qb).
Proof.
  intros Hk. unfold ComputeN, ComputeN_body at 1. cbv zeta.
  destruct (Req_dec_T k 0) as [E|_]; [contradiction|]. reflexivity.
Qed.

Lemma ComputeN_dynamic_succeeds (Normal2D : vec2 -> vec2 -> vec2) (k : R)
      (p vecp qa qb : vec2) (pOnElement : bool) :
  k <> 0 -> qa <> qb -> 0 <= x0 qa -> 0 <= x0 qb ->
  succeeds (ComputeN Normal2D k p vecp qa qb pOnElement).
Proof.
  intros Hk Hne Ha Hb. destruct pOnElement.
  - rewrite ComputeN_dynamic_on by exact Hk.
    destruct (nSections_of_valid qa qb Hne Ha Hb) as [-> Hge]. cbn [bind].
    assert (Hgen : forall x, succeeds
      (generatorFunc (derived_segment_count qa qb) p
         (N_circleFunc_regular k vecp (Normal2D qa qb)) x)).
    { intros x. apply generatorFunc_succeeds; [exact Hge|].
      intros p3 r z y. apply succeeds_Ok. }
    apply succeeds_bind.
    { unfold ComputeN. rewrite ComputeN_body_static_on by assumption.
      apply static_cone_sum_succeeds; assumption. }
    intros a. apply succeeds_bind.
    { apply ComputeL_static_on_succeeds; assumption. }
    intros b. apply succeeds_bind; [apply ComplexQuad_succeeds, Hgen|].
    intros c. apply succeeds_bind; [apply ComplexQuad_succeeds, Hgen|].
    intros d. apply succeeds_Ok.
  - rewrite ComputeN_dynamic_off by exact Hk.
    destruct (nSections_of_valid qa qb Hne Ha Hb) as [-> Hge]. cbn [bind].
    apply ComplexQuad_succeeds. intros x.
    apply generatorFunc_succeeds; [exact Hge|].
    intros p3 r z y. apply succeeds_Ok.
Qed.

(** ** Negative wavenumbers *)

Lemma ComputeM_dynamic (Normal2D : vec2 -> vec2 -> vec2) (k : R)
      (p qa qb : vec2) (pOnElement : bool) :
  k <> 0 ->
  ComputeM Normal2D k p qa qb pOnElement =
  (n <- nSections_of qa qb ;;
   if pOnElement then
     a <- ComplexQuad
            (generatorFunc n p (M_circleFunc_dynamic k (Normal2D qa qb)))
            qa p ;;
     b <- ComplexQuad
            (generatorFunc n p (M_circleFunc_dynamic k (Normal2D qa qb)))
            p qb ;;
     Ok (a + b)%C
   else
     ComplexQuad (generatorFunc n p (M_circleFunc_dynamic k (Normal2D qa qb)))
       qa qb).
Proof.
  intros Hk. unfold ComputeM. cbv zeta.
  destruct (Req_dec_T k 0) as [E|_]; [contradiction|]. reflexivity.
Qed.

Lemma ComputeMt_dynamic (k : R) (p vecp qa qb : vec2) (pOnElement : bool) :
  k <> 0 ->
  ComputeMt k p vecp qa qb pOnElement =
  (n <- nSections_of qa qb ;;
   if pOnElement then
     a <- ComplexQuad (generatorFunc n p (Mt_circleFunc_dynamic k vecp)) qa p ;;
     b <- ComplexQuad (generatorFunc n p (Mt_circleFunc_dynamic k vecp)) p qb ;;
     Ok (a + b)%C
   else
     ComplexQuad (generatorFunc n p (Mt_circleFunc_dynamic k vecp)) qa qb).
Proof.
  intros Hk. unfold ComputeMt. cbv zeta.
  destruct (Req_dec_T k 0) as [E|_]; [contradiction|]. reflexivity.
Qed.

(** C9, as amended: no evaluator checks the sign of the wavenumber.  For
    [k < 0], on an element with [qa <> qb] and non-negative radial
    coordinates, each of the four evaluators returns a value, computed by its
    [k != 0.0] branch as for a positive wavenumber: off the element, the
    baseline quadrature of the azimuthal average of the dynamic kernel
    ([exp(i k R) / R] for [ComputeL]); on the element, the two quadratures
    split at [p] of the dynamic kernel for [ComputeM] and [ComputeMt], and
    the static value plus the correction quadratures for [ComputeL] and
    [ComputeN]. *)
Theorem negative_wavenumber_is_evaluated (Normal2D : vec2 -> vec2 -> vec2)
        (k : R) (p vecp qa qb : vec2) (pOnElement : bool)
        (Hk : k < 0) (Hne : qa <> qb) (Ha : 0 <= x0 qa) (Hb : 0 <= x0 qb) :
  succeeds (ComputeL k p qa qb pOnElement)
  /\ succeeds (ComputeM Normal2D k p qa qb pOnElement)
  /\ succeeds (ComputeMt k p vecp qa qb pOnElement)
  /\ succeeds (ComputeN Normal2D k p vecp qa qb pOnElement)
  /\ ComputeL k p qa qb false =
     (n <- nSections_of qa qb ;;
      ComplexQuad (generatorFunc n p (L_circleFunc_dynamic k)) qa qb)
  /\ ComputeL k p qa qb true =
     (n <- nSections_of qa qb ;;
      a <- ComputeL 0 p qa qb true ;;
      b <- ComplexQuad (generatorFunc (2 * n) p (L_circleFunc_regular k))
             qa qb ;;
      Ok (a + b)%C)
  /\ ComputeM Normal2D k p qa qb pOnElement =
     (n <- nSections_of qa qb ;;
      if pOnElement then
        a <- ComplexQuad
               (generatorFunc n p (M_circleFunc_dynamic k (Normal2D qa qb)))
               qa p ;;
        b <- ComplexQuad
               (generatorFunc n p (M_circleFunc_dynamic k (Normal2D qa qb)))
               p qb ;;
        Ok (a + b)%C
      else
        ComplexQuad
          (generatorFunc n p (M_circleFunc_dynamic k (Normal2D qa qb)))
          qa qb)
  /\ ComputeMt k p vecp qa qb pOnElement =
     (n <- nSections_of qa qb ;;
      if pOnElement then
        a <- ComplexQuad (generatorFunc n p (Mt_circleFunc_dynamic k vecp))
               qa p ;;
        b <- ComplexQuad (generatorFunc n p (Mt_circleFunc_dynamic k vecp))
               p qb ;;
        Ok (a + b)%C
      else
        ComplexQuad (generatorFunc n p (Mt_circleFunc_dynamic k vecp)) qa qb)
  /\ ComputeN Normal2D k p vecp qa qb false =
     (n <- nSections_of qa qb ;;
      ComplexQuad
        (generatorFunc n p (N_circleFunc_dynamic k vecp (Normal2D qa qb)))
        qa qb)
  /\ ComputeN Normal2D k p vecp qa qb true =
     (n <- nSections_of qa qb ;;
      a <- ComputeN Normal2D 0 p vecp qa qb true ;;
      b <- ComputeL 0 p qa qb true ;;
      c <- ComplexQuad
             (generatorFunc n p (N_circleFunc_regular k vecp (Normal2D qa qb)))
             qa p ;;
      d <- ComplexQuad
             (generatorFunc n p (N_circleFunc_regular k vecp (Normal2D qa qb)))
             p qb ;;
      Ok (a - (RtoC (k ^ 2) * b) /r 2 + c + d)%C).
Proof.
  assert (Hk0 : k <> 0) by lra.
  split; [apply ComputeL_dynamic_succeeds; assumption|].
  split; [apply ComputeM_succeeds; assumption|].
  split; [apply ComputeMt_dynamic_succeeds; assumption|].
  split; [apply ComputeN_dynamic_succeeds; assumption|].
  split; [apply ComputeL_dynamic_off; assumption|].
  split; [apply ComputeL_dynamic_on; assumption|].
  split; [apply ComputeM_dynamic; assumption|].
  split; [apply ComputeMt_dynamic; assumption|].
  split; [apply ComputeN_dynamic_off; assumption|].
  apply ComputeN_dynamic_on; assumption.
Qed.

Lemma negative_wavenumber_is_evaluated_witness :
  ComputeM (fun _ _ => V2 0 1) (-1) (V2 5 3) (V2 1 0) (V2 2 0) false =
  (n <- nSections_of (V2 1 0) (V2 2 0) ;;
   ComplexQuad
     (generatorFunc n (V2 5 3) (M_circleFunc_dynamic (-1) (V2 0 1)))
     (V2 1 0) (V2 2 0)).
Proof.
  apply (negative_wavenumber_is_evaluated (fun _ _ => V2 0 1) (-1)
           (V2 5 3) (V2 0 1) (V2 1 0) (V2 2 0) false).
  - lra.
  - apply V2_neq. left. lra.
  - simpl. lra.
  - simpl. lra.
Defined.

(** C9, as stated, fails for [ComputeL] at k = -1, p = (5, 3), qa = (1, 0),
    qb = (2, 0), p off the element: the call returns a value and raises
    nothing. *)
Lemma negative_wavenumber_not_rejected :
  ~ exists e : exn, ComputeL (-1) (V2 5 3) (V2 1 0) (V2 2 0) false = Raise e.
Proof.
  intros [e He]. revert He. apply succeeds_not_Raise.
  apply ComputeL_dynamic_succeeds.
  - lra.
  - apply V2_neq. left. lra.
  - simpl. lra.
  - simpl. lra.
Qed.

(** * Further properties *)

(** ** Maps that commute with real-weighted sums

    Conjugation and multiplication by a constant both commute with every
    quadrature of the file, because the weights, abscissae and lengths are
    real. *)

Lemma Cmul_RtoC_comm (v : C) (r : R) : (v * RtoC r)%C = (RtoC r * v)%C.
Proof. C_ring. Qed.

Lemma Cdivr_as_mul (z : C) (x : R) : (z /r x)%C = (RtoC (/ x) * z)%C.
Proof. apply C_eq; simpl; unfold Rdiv; ring. Qed.

Section RealLinearMap.

Variable phi : C -> C.
Hypothesis phi_add : forall a b : C, phi (a + b)%C = (phi a + phi b)%C.
Hypothesis phi_scal : forall (w : R) (v : C), phi (RtoC w * v)%C = (RtoC w * phi v)%C.

Lemma phi_zero : phi (RtoC 0) = RtoC 0.
Proof.
  replace (RtoC 0) with (RtoC 0 * RtoC 0)%C at 1 by C_ring.
  rewrite phi_scal. C_ring.
Qed.

Lemma phi_mul_r (v : C) (r : R) : phi (v * RtoC r)%C = (phi v * RtoC r)%C.
Proof. rewrite !Cmul_RtoC_comm. apply phi_scal. Qed.

Lemma phi_divr (z : C) (x : R) : phi (z /r x)%C = (phi z /r x)%C.
Proof. rewrite !Cdivr_as_mul. apply phi_scal. Qed.

Lemma integrate_loop_map (f g : vec2 -> result C) (rf : list vec2) (n : nat)
      (sum : C) :
  (forall x, g x = rmap phi (f x)) ->
  CircularIntegratorPi.integrate_loop g rf n (phi sum) =
  rmap phi (CircularIntegratorPi.integrate_loop f rf n sum).
Proof.
  intros H. revert n sum; induction rf as [|x rf IH]; intros n sum.
  - reflexivity.
  - cbn [CircularIntegratorPi.integrate_loop]. rewrite H.
    destruct (f x) as [v|e]; cbn [rmap bind]; [|reflexivity].
    rewrite <- IH, phi_add, phi_scal. reflexivity.
Qed.

Lemma integrate_map (circle : CircularIntegratorPi.t)
      (f g : vec2 -> result C) :
  (forall x, g x = rmap phi (f x)) ->
  CircularIntegratorPi.integrate circle g =
  rmap phi (CircularIntegratorPi.integrate circle f).
Proof.
  intros H. unfold CircularIntegratorPi.integrate.
  rewrite <- phi_zero at 1. rewrite (integrate_loop_map f g) by exact H.
  destruct (CircularIntegratorPi.integrate_loop f _ 0 _) as [s|e];
    cbn [rmap bind]; [|reflexivity].
  rewrite phi_divr, phi_mul_r. reflexivity.
Qed.

Lemma generatorFunc_map (n : Z) (p : vec2)
      (cf cg : vec3 -> R -> R -> vec2 -> result C) (x : vec2) :
  (forall p3 r z y, cg p3 r z y = rmap phi (cf p3 r z y)) ->
  generatorFunc n p cg x = rmap phi (generatorFunc n p cf x).
Proof.
  intros H. unfold generatorFunc.
  destruct (CircularIntegratorPi.init n) as [circle|e]; [|reflexivity].
  cbn [bind].
  rewrite (integrate_map circle (cf (lift3 p) (x0 x) (x1 x)))
    by (intros y; apply H).
  destruct (CircularIntegratorPi.integrate circle _) as [v|e];
    cbn [rmap bind]; [|reflexivity].
  rewrite phi_divr, phi_mul_r. reflexivity.
Qed.

Lemma ComplexQuad_loop_map (f g : vec2 -> result C) (start vec : vec2)
      (rows : list (R * R)) (sum : C) :
  (forall x, g x = rmap phi (f x)) ->
  ComplexQuad_loop g start vec rows (phi sum) =
  rmap phi (ComplexQuad_loop f start vec rows sum).
Proof.
  intros H. revert sum; induction rows as [|row rows IH]; intros sum.
  - reflexivity.
  - cbn [ComplexQuad_loop]. rewrite H.
    destruct (f _) as [v|e]; cbn [rmap bind]; [|reflexivity].
    rewrite <- IH, phi_add, phi_scal. reflexivity.
Qed.

Lemma ComplexQuad_map (f g : vec2 -> result C) (start end_ : vec2) :
  (forall x, g x = rmap phi (f x)) ->
  ComplexQuad g start end_ = rmap phi (ComplexQuad f start end_).
Proof.
  intros H. unfold ComplexQuad.
  rewrite <- phi_zero at 1. rewrite (ComplexQuad_loop_map f g) by exact H.
  destruct (ComplexQuad_loop f _ _ _ _) as [s|e]; cbn [rmap bind];
    [|reflexivity].
  rewrite phi_mul_r. reflexivity.
Qed.

Lemma ComplexQuadGenerator_loop_map (f g : vec2 -> result C)
      (start vec : vec2) (rows : list (R * R)) (sum : C) :
  (forall x, g x = rmap phi (f x)) ->
  ComplexQuadGenerator_loop g start vec rows (phi sum) =
  rmap phi (ComplexQuadGenerator_loop f start vec rows sum).
Proof.
  intros H. revert sum; induction rows as [|row rows IH]; intros sum.
  - reflexivity.
  - cbn [ComplexQuadGenerator_loop]. rewrite H.
    destruct (f _) as [v|e]; cbn [rmap bind]; [|reflexivity].
    rewrite <- IH, phi_add, phi_mul_r, phi_scal. reflexivity.
Qed.

Lemma ComplexQuadGenerator_map (f g : vec2 -> result C) (start end_ : vec2) :
  (forall x, g x = rmap phi (f x)) ->
  ComplexQuadGenerator g start end_ =
  rmap phi (ComplexQuadGenerator f start end_).
Proof.
  intros H. unfold ComplexQuadGenerator.
  rewrite <- phi_zero at 1.
  rewrite (ComplexQuadGenerator_loop_map f g) by exact H.
  destruct (ComplexQuadGenerator_loop f _ _ _ _) as [s|e]; cbn [rmap bind];
    [|reflexivity].
  rewrite phi_mul_r, phi_scal. reflexivity.
Qed.

Lemma ComplexQuadCone_loop_map (f g : vec2 -> result C) (start delta : vec2)
      (ss : list nat) (sum : C) :
  (forall x, g x = rmap phi (f x)) ->
  ComplexQuadCone_loop g start delta ss (phi sum) =
  rmap phi (ComplexQuadCone_loop f start delta ss sum).
Proof.
  intros H. revert sum; induction ss as [|s ss IH]; intros sum.
  - reflexivity.
  - cbn [ComplexQuadCone_loop]. rewrite (ComplexQuad_map f g) by exact H.
    destruct (ComplexQuad f _ _) as [v|e]; cbn [rmap bind]; [|reflexivity].
    rewrite <- IH, phi_add. reflexivity.
Qed.

Lemma ComplexQuadCone_map (f g : vec2 -> result C) (start end_ : vec2)
      (segments : Z) :
  (forall x, g x = rmap phi (f x)) ->
  ComplexQuadCone g start end_ segments =
  rmap phi (ComplexQuadCone f start end_ segments).
Proof.
  intros H. unfold ComplexQuadCone.
  destruct (segments =? 0)%Z; [reflexivity|].
  rewrite <- phi_zero at 1. apply ComplexQuadCone_loop_map, H.
Qed.

(** Two calls whose values are added. *)
Lemma add_map (m1 m1' m2 m2' : result C) :
  m1' = rmap phi m1 -> m2' = rmap phi m2 ->
  (a <- m1' ;; b <- m2' ;; Ok (a + b)%C) =
  rmap phi (a <- m1 ;; b <- m2 ;; Ok (a + b)%C).
Proof.
  intros -> ->. destruct m1 as [a|e]; cbn [rmap bind]; [|reflexivity].
  destruct m2 as [b|e]; cbn [rmap bind]; [|reflexivity].
  rewrite phi_add. reflexivity.
Qed.

Lemma phi_neg (z : C) : phi (- z)%C = (- phi z)%C.
Proof.
  replace (- z)%C with (RtoC (-1) * z)%C by C_ring.
  rewrite phi_scal. C_ring.
Qed.

Lemma phi_sub (a b : C) : phi (a - b)%C = (phi a - phi b)%C.
Proof.
  replace (a - b)%C with (a + - b)%C by C_ring.
  rewrite phi_add, phi_neg. C_ring.
Qed.

(** Two calls whose negated sum is returned. *)
Lemma neg_add_map (m1 m1' m2 m2' : result C) :
  m1' = rmap phi m1 -> m2' = rmap phi m2 ->
  (a <- m1' ;; b <- m2' ;; Ok (- (a + b))%C) =
  rmap phi (a <- m1 ;; b <- m2 ;; Ok (- (a + b))%C).
Proof.
  intros -> ->. destruct m1 as [a|e]; cbn [rmap bind]; [|reflexivity].
  destruct m2 as [b|e]; cbn [rmap bind]; [|reflexivity].
  rewrite phi_neg, phi_add. reflexivity.
Qed.

(** The four calls of the on-element dynamic branch of [ComputeN]. *)
Lemma correction_map (w : R) (m1 m1' m2 m2' m3 m3' m4 m4' : result C) :
  m1' = rmap phi m1 -> m2' = rmap phi m2 ->
  m3' = rmap phi m3 -> m4' = rmap phi m4 ->
  (a <- m1' ;; b <- m2' ;; c <- m3' ;; d <- m4' ;;
   Ok (a - (RtoC w * b) /r 2 + c + d)%C) =
  rmap phi (a <- m1 ;; b <- m2 ;; c <- m3 ;; d <- m4 ;;
            Ok (a - (RtoC w * b) /r 2 + c + d)%C).
Proof.
  intros -> -> -> ->.
  destruct m1 as [a|e]; cbn [rmap bind]; [|reflexivity].
  destruct m2 as [b|e]; cbn [rmap bind]; [|reflexivity].
  destruct m3 as [c|e]; cbn [rmap bind]; [|reflexivity].
  destruct m4 as [d|e]; cbn [rmap bind]; [|reflexivity].
  rewrite !phi_add, phi_sub, phi_divr, phi_scal. reflexivity.
Qed.

End RealLinearMap.

(** ** Conjugation *)

Lemma Cconj_add (a b : C) : Cconj (a + b) = (Cconj a + Cconj b)%C.
Proof. C_ring. Qed.

Lemma Cconj_scal (w : R) (v : C) : Cconj (RtoC w * v) = (RtoC w * Cconj v)%C.
Proof. C_ring. Qed.

Lemma Cconj_RtoC (x : R) : Cconj (RtoC x) = RtoC x.
Proof. C_ring. Qed.

Lemma Cconj_fixed (v : C) : v = Cconj v -> v = RtoC (Re v).
Proof.
  intros H. apply C_eq; [reflexivity|]. cbn [Im RtoC].
  assert (E : Im v = Im (Cconj v)) by (rewrite <- H; reflexivity).
  cbn [Im Cconj] in E. lra.
Qed.

Lemma ikR_opp (k RR : R) : ikR (- k) RR = Cconj (ikR k RR).
Proof. unfold ikR. C_ring. Qed.

Lemma Cexp_ikR_opp (k RR : R) :
  Cexp (ikR (- k) RR) = Cconj (Cexp (ikR k RR)).
Proof.
  rewrite !Cexp_ikR. unfold Cconj. cbn [Re Im].
  replace (- k * RR) with (- (k * RR)) by ring.
  rewrite cos_neg, sin_neg. reflexivity.
Qed.

Ltac conj_kernel :=
  cbv zeta; cbn [rmap bind]; f_equal;
  rewrite ?Cexp_ikR_opp, ?ikR_opp;
  repeat match goal with
         | |- context [Cexp ?z] => generalize (Cexp z); intro
         end;
  repeat match goal with
         | |- context [ikR ?k ?r] => generalize (ikR k r); intro
         end;
  apply C_eq; cbn [Re Im RtoC Cadd Csub Cneg Cmul Cdivr Cconj];
  unfold Rdiv; ring.

Lemma L_circleFunc_static_conj p3 r z x :
  L_circleFunc_static p3 r z x = rmap Cconj (L_circleFunc_static p3 r z x).
Proof. unfold L_circleFunc_static. conj_kernel. Qed.

Lemma L_circleFunc_regular_conj k p3 r z x :
  L_circleFunc_regular (- k) p3 r z x =
  rmap Cconj (L_circleFunc_regular k p3 r z x).
Proof. unfold L_circleFunc_regular. conj_kernel. Qed.

Lemma L_circleFunc_dynamic_conj k p3 r z x :
  L_circleFunc_dynamic (- k) p3 r z x =
  rmap Cconj (L_circleFunc_dynamic k p3 r z x).
Proof. unfold L_circleFunc_dynamic. conj_kernel. Qed.

Lemma M_circleFunc_static_conj vec_q p3 r z x :
  M_circleFunc_static vec_q p3 r z x =
  rmap Cconj (M_circleFunc_static vec_q p3 r z x).
Proof. unfold M_circleFunc_static. conj_kernel. Qed.

Lemma M_circleFunc_dynamic_conj k vec_q p3 r z x :
  M_circleFunc_dynamic (- k) vec_q p3 r z x =
  rmap Cconj (M_circleFunc_dynamic k vec_q p3 r z x).
Proof. unfold M_circleFunc_dynamic. conj_kernel. Qed.

Lemma Mt_circleFunc_dynamic_conj k vecp p3 r z x :
  Mt_circleFunc_dynamic (- k) vecp p3 r z x =
  rmap Cconj (Mt_circleFunc_dynamic k vecp p3 r z x).
Proof. unfold Mt_circleFunc_dynamic. conj_kernel. Qed.

Lemma N_circleFunc_cone_conj vecp3 direction p3 r z x :
  N_circleFunc_cone vecp3 direction p3 r z x =
  rmap Cconj (N_circleFunc_cone vecp3 direction p3 r z x).
Proof. unfold N_circleFunc_cone. conj_kernel. Qed.

Lemma N_circleFunc_static_conj vecp vec_q p3 r z x :
  N_circleFunc_static vecp vec_q p3 r z x =
  rmap Cconj (N_circleFunc_static vecp vec_q p3 r z x).
Proof. unfold N_circleFunc_static. conj_kernel. Qed.

Lemma N_circleFunc_regular_conj k vecp vec_q p3 r z x :
  N_circleFunc_regular (- k) vecp vec_q p3 r z x =
  rmap Cconj (N_circleFunc_regular k vecp vec_q p3 r z x).
Proof. unfold N_circleFunc_regular. conj_kernel. Qed.

Lemma N_circleFunc_dynamic_conj k vecp vec_q p3 r z x :
  N_circleFunc_dynamic (- k) vecp vec_q p3 r z x =
  rmap Cconj (N_circleFunc_dynamic k vecp vec_q p3 r z x).
Proof. unfold N_circleFunc_dynamic. conj_kernel. Qed.

Ltac conj_gen lemma :=
  apply (ComplexQuad_map Cconj Cconj_add Cconj_scal); intros ?x;
  apply (generatorFunc_map Cconj Cconj_add Cconj_scal); intros ?p3 ?r ?z ?y;
  apply lemma.

Lemma ComputeL_body_conj
      (self : R -> vec2 -> vec2 -> vec2 -> bool -> result C)
      (k : R) (p qa qb : vec2) (pOnElement : bool) :
  (forall p qa qb, self 0 p qa qb true = rmap Cconj (self 0 p qa qb true)) ->
  ComputeL_body self (- k) p qa qb pOnElement =
  rmap Cconj (ComputeL_body self k p qa qb pOnElement).
Proof.
  intros Hself. unfold ComputeL_body.
  destruct (nSections_of qa qb) as [n|e]; [|reflexivity]. cbn [bind].
  destruct pOnElement;
    destruct (Req_dec_T k 0) as [E|E], (Req_dec_T (- k) 0) as [E'|E'];
    try (exfalso; lra).
  - apply (add_map Cconj Cconj_add);
      apply (ComplexQuadGenerator_map Cconj Cconj_add Cconj_scal); intros x;
      apply (generatorFunc_map Cconj Cconj_add Cconj_scal); intros p3 r z y;
      apply L_circleFunc_static_conj.
  - apply (add_map Cconj Cconj_add); [apply Hself|].
    conj_gen L_circleFunc_regular_conj.
  - conj_gen L_circleFunc_static_conj.
  - conj_gen L_circleFunc_dynamic_conj.
Qed.

Lemma ComputeL_conjugate_aux (k : R) (p qa qb : vec2) (pOnElement : bool) :
  ComputeL (- k) p qa qb pOnElement =
  rmap Cconj (ComputeL k p qa qb pOnElement).
Proof.
  unfold ComputeL. apply ComputeL_body_conj. intros p' qa' qb'.
  rewrite <- Ropp_0 at 1. apply ComputeL_body_conj. reflexivity.
Qed.

(** Changing the sign of the wavenumber conjugates the value of [ComputeL],
    and leaves an exception as it is. *)
Theorem ComputeL_conjugate (k : R) (p qa qb : vec2) (pOnElement : bool) :
  ComputeL (- k) p qa qb pOnElement =
  rmap Cconj (ComputeL k p qa qb pOnElement).
Proof. apply ComputeL_conjugate_aux. Qed.

Lemma ComputeM_conjugate_aux (Normal2D : vec2 -> vec2 -> vec2) (k : R)
        (p qa qb : vec2) (pOnElement : bool) :
  ComputeM Normal2D (- k) p qa qb pOnElement =
  rmap Cconj (ComputeM Normal2D k p qa qb pOnElement).
Proof.
  unfold ComputeM. cbv zeta.
  destruct (nSections_of qa qb) as [n|e]; [|reflexivity]. cbn [bind].
  destruct (Req_dec_T k 0) as [E|E], (Req_dec_T (- k) 0) as [E'|E'];
    try (exfalso; lra); destruct pOnElement.
  - apply (add_map Cconj Cconj_add); conj_gen M_circleFunc_static_conj.
  - conj_gen M_circleFunc_static_conj.
  - apply (add_map Cconj Cconj_add); conj_gen M_circleFunc_dynamic_conj.
  - conj_gen M_circleFunc_dynamic_conj.
Qed.

(** Changing the sign of the wavenumber conjugates the value of [ComputeM]. *)
Theorem ComputeM_conjugate (Normal2D : vec2 -> vec2 -> vec2) (k : R)
        (p qa qb : vec2) (pOnElement : bool) :
  ComputeM Normal2D (- k) p qa qb pOnElement =
  rmap Cconj (ComputeM Normal2D k p qa qb pOnElement).
Proof. apply ComputeM_conjugate_aux. Qed.

Lemma Mt_circleFunc_static_conj k k' p vecp qa qb b n p3 r z x :
  Mt_circleFunc_static k' p vecp qa qb b n p3 r z x =
  rmap Cconj (Mt_circleFunc_static k p vecp qa qb b n p3 r z x).
Proof. rewrite !Mt_circleFunc_static_raises. reflexivity. Qed.

(** Changing the sign of the wavenumber conjugates the value of [ComputeMt];
    at [k = 0] both sides are the same exception. *)
Theorem ComputeMt_conjugate (k : R) (p vecp qa qb : vec2) (pOnElement : bool) :
  ComputeMt (- k) p vecp qa qb pOnElement =
  rmap Cconj (ComputeMt k p vecp qa qb pOnElement).
Proof.
  unfold ComputeMt. cbv zeta.
  destruct (nSections_of qa qb) as [n|e]; [|reflexivity]. cbn [bind].
  destruct (Req_dec_T k 0) as [E|E], (Req_dec_T (- k) 0) as [E'|E'];
    try (exfalso; lra); destruct pOnElement.
  - apply (add_map Cconj Cconj_add); conj_gen Mt_circleFunc_static_conj.
  - conj_gen Mt_circleFunc_static_conj.
  - apply (add_map Cconj Cconj_add); conj_gen Mt_circleFunc_dynamic_conj.
  - conj_gen Mt_circleFunc_dynamic_conj.
Qed.

Lemma ComputeN_body_conj (Normal2D : vec2 -> vec2 -> vec2)
      (self : R -> vec2 -> vec2 -> vec2 -> vec2 -> bool -> result C)
      (k : R) (p vecp qa qb : vec2) (pOnElement : bool) :
  (forall p vecp qa qb,
      self 0 p vecp qa qb true = rmap Cconj (self 0 p vecp qa qb true)) ->
  ComputeN_body Normal2D self (- k) p vecp qa qb pOnElement =
  rmap Cconj (ComputeN_body Normal2D self k p vecp qa qb pOnElement).
Proof.
  intros Hself. unfold ComputeN_body. cbv zeta.
  destruct (nSections_of qa qb) as [n|e]; [|reflexivity]. cbn [bind].
  destruct pOnElement;
    destruct (Req_dec_T k 0) as [E|E], (Req_dec_T (- k) 0) as [E'|E'];
    try (exfalso; lra).
  - destruct (int_of_quotient (x0 qa * sqrt 2) _) as [nA|e]; [|reflexivity].
    cbn [bind].
    destruct (int_of_quotient (x0 qb * sqrt 2) _) as [nB|e]; cbn [bind].
    + apply (neg_add_map Cconj Cconj_add Cconj_scal);
        apply (ComplexQuadCone_map Cconj Cconj_add Cconj_scal); intros x;
        unfold coneFunc;
        apply (generatorFunc_map Cconj Cconj_add Cconj_scal);
        intros p3 r z y; apply N_circleFunc_cone_conj.
    + destruct (ComplexQuadCone _ qa _ _); reflexivity.
  - replace ((- k) ^ 2) with (k ^ 2) by ring.
    apply (correction_map Cconj Cconj_add Cconj_scal).
    + apply Hself.
    + rewrite <- Ropp_0 at 1. apply ComputeL_conjugate_aux.
    + conj_gen N_circleFunc_regular_conj.
    + conj_gen N_circleFunc_regular_conj.
  - conj_gen N_circleFunc_static_conj.
  - conj_gen N_circleFunc_dynamic_conj.
Qed.

Lemma ComputeN_conjugate_aux (Normal2D : vec2 -> vec2 -> vec2) (k : R)
        (p vecp qa qb : vec2) (pOnElement : bool) :
  ComputeN Normal2D (- k) p vecp qa qb pOnElement =
  rmap Cconj (ComputeN Normal2D k p vecp qa qb pOnElement).
Proof.
  unfold ComputeN. apply ComputeN_body_conj. intros p' vecp' qa' qb'.
  rewrite <- Ropp_0 at 1. apply ComputeN_body_conj. reflexivity.
Qed.

(** Changing the sign of the wavenumber conjugates the value of [ComputeN]. *)
Theorem ComputeN_conjugate (Normal2D : vec2 -> vec2 -> vec2) (k : R)
        (p vecp qa qb : vec2) (pOnElement : bool) :
  ComputeN Normal2D (- k) p vecp qa qb pOnElement =
  rmap Cconj (ComputeN Normal2D k p vecp qa qb pOnElement).
Proof. apply ComputeN_conjugate_aux. Qed.

Lemma self_conjugate_real (m : result C) :
  m = rmap Cconj m -> m = rmap (fun v => RtoC (Re v)) m.
Proof.
  destruct m as [v|e]; cbn [rmap]; [|reflexivity].
  intros H. injection H as H. f_equal. apply Cconj_fixed, H.
Qed.

(** At [k = 0] the value of [ComputeL], of [ComputeM] and of [ComputeN] is a
    real number: it equals its own real part, on and off the element. *)
Theorem static_values_are_real (Normal2D : vec2 -> vec2 -> vec2)
        (p vecp qa qb : vec2) (pOnElement : bool) :
  ComputeL 0 p qa qb pOnElement =
  rmap (fun v => RtoC (Re v)) (ComputeL 0 p qa qb pOnElement)
  /\ ComputeM Normal2D 0 p qa qb pOnElement =
     rmap (fun v => RtoC (Re v)) (ComputeM Normal2D 0 p qa qb pOnElement)
  /\ ComputeN Normal2D 0 p vecp qa qb pOnElement =
     rmap (fun v => RtoC (Re v)) (ComputeN Normal2D 0 p vecp qa qb pOnElement).
Proof.
  split; [|split]; apply self_conjugate_real.
  - rewrite <- Ropp_0 at 1. apply ComputeL_conjugate_aux.
  - rewrite <- Ropp_0 at 1. apply ComputeM_conjugate_aux.
  - rewrite <- Ropp_0 at 1. apply ComputeN_conjugate_aux.
Qed.

(** ** The half-circle integrator: construction, samples, linearity *)

Lemma rotationFactor_unit (factor : R) (i : nat) :
  x0 (CircularIntegratorPi.rotationFactor factor i) ^ 2
  + x1 (CircularIntegratorPi.rotationFactor factor i) ^ 2 = 1.
Proof.
  unfold CircularIntegratorPi.rotationFactor. cbn [x0 x1].
  pose proof (sin2_cos2 (CircularIntegratorPi.arcAbscissa i * factor)) as H.
  unfold Rsqr in H. lra.
Qed.

(** The constructor succeeds exactly for a segment count of at least 1: a
    negative count ends in [ValueError], the count 0 in [ZeroDivisionError];
    an integrator that is built keeps the count and holds eight rotation
    factors per segment, each a point of the unit circle. *)
Theorem init_outcome (n : Z) :
  (succeeds (CircularIntegratorPi.init n) <-> (1 <= n)%Z)
  /\ ((n < 0)%Z -> CircularIntegratorPi.init n = Raise ValueError)
  /\ (n = 0%Z -> CircularIntegratorPi.init n = Raise ZeroDivisionError)
  /\ (forall circle,
         CircularIntegratorPi.init n = Ok circle ->
         CircularIntegratorPi.segments circle = n
         /\ List.length (CircularIntegratorPi.rotationFactors circle)
            = (8 * Z.to_nat n)%nat
         /\ Forall (fun v => x0 v ^ 2 + x1 v ^ 2 = 1)
                   (CircularIntegratorPi.rotationFactors circle)).
Proof.
  unfold CircularIntegratorPi.init.
  destruct (Z.ltb_spec n 0) as [Hneg|Hnn].
  { split; [split; [intros [c Hc]; discriminate|intros; lia]|].
    split; [reflexivity|]. split; [intros; lia|].
    intros circle Hc; discriminate. }
  destruct (Z.eqb_spec n 0) as [Hz|Hnz].
  { split; [split; [intros [c Hc]; discriminate|intros; lia]|].
    split; [intros; lia|]. split; [reflexivity|].
    intros circle Hc; discriminate. }
  split; [split; [intros _; lia|intros _; apply succeeds_Ok]|].
  split; [intros; lia|]. split; [intros; lia|].
  intros circle Hc. injection Hc as <-.
  cbn [CircularIntegratorPi.segments CircularIntegratorPi.rotationFactors].
  split; [reflexivity|]. split.
  - rewrite length_map, length_seq, samples_shape0_eq. lia.
  - apply Forall_forall. intros v Hv. apply in_map_iff in Hv.
    destruct Hv as [i [<- _]]. apply rotationFactor_unit.
Qed.

Lemma abscissa_offset_range (j : nat) :
  (j < 8)%nat -> 0.85 <= INR j / 8 + abscissa j <= 1.03.
Proof.
  intros Hj. unfold abscissa, samples.
  do 8 (destruct j as [|j]; [cbn [nth fst INR]; lra|]). lia.
Qed.

(** Where the constructor puts its samples: sample [i] has the abscissa of
    the panel subdivision, [i // 8 + samples[i % 8, 0]], plus [(i % 8) / 8];
    so every sample of panel [m] lies between [m + 0.85] and [m + 1.03], in
    the last sixth of its panel or beyond its end. *)
Theorem arcAbscissa_placement (i : nat) :
  CircularIntegratorPi.arcAbscissa i =
  INR (i / samples_shape0) + abscissa (i mod samples_shape0)
  + INR (i mod samples_shape0) / 8
  /\ INR (i / samples_shape0) + 0.85 <= CircularIntegratorPi.arcAbscissa i
     <= INR (i / samples_shape0) + 1.03.
Proof.
  rewrite samples_shape0_eq.
  assert (Hsplit : INR i = 8 * INR (i / 8) + INR (i mod 8)).
  { rewrite (Nat.div_mod_eq i 8) at 1.
    rewrite plus_INR, mult_INR. cbn [INR]. ring. }
  assert (Heq : CircularIntegratorPi.arcAbscissa i =
                INR (i / 8) + abscissa (i mod 8) + INR (i mod 8) / 8).
  { unfold CircularIntegratorPi.arcAbscissa. rewrite samples_shape0_eq.
    rewrite Hsplit at 1. cbn [INR]. field. }
  split; [exact Heq|]. rewrite Heq.
  pose proof (abscissa_offset_range (i mod 8)
                (Nat.mod_upper_bound i 8 ltac:(lia))) as H.
  lra.
Qed.

Lemma integrate_loop_linear (c : C) (f g : vec2 -> C) (rf : list vec2)
      (n : nat) (s1 s2 : C) :
  exists a b : C,
    CircularIntegratorPi.integrate_loop (fun x => Ok (f x)) rf n s1 = Ok a
    /\ CircularIntegratorPi.integrate_loop (fun x => Ok (g x)) rf n s2 = Ok b
    /\ CircularIntegratorPi.integrate_loop
         (fun x => Ok (c * f x + g x)%C) rf n (c * s1 + s2)%C
       = Ok (c * a + b)%C.
Proof.
  revert n s1 s2; induction rf as [|x rf IH]; intros n s1 s2.
  - exists s1, s2. repeat split; reflexivity.
  - cbn [CircularIntegratorPi.integrate_loop bind].
    destruct (IH (S n)
                (s1 + RtoC (weight (n mod samples_shape0)) * f x)%C
                (s2 + RtoC (weight (n mod samples_shape0)) * g x)%C)
      as [a [b [Ha [Hb Hab]]]].
    exists a, b. split; [exact Ha|]. split; [exact Hb|].
    rewrite <- Hab. f_equal. C_ring.
Qed.

(** [integrate] is linear on integrands that do not fail: the integral of
    [c * f + g], for a complex constant [c], is [c] times the integral of [f]
    plus the integral of [g]. *)
Theorem integrate_linear (circle : CircularIntegratorPi.t) (c : C)
        (f g : vec2 -> C) :
  exists a b : C,
    CircularIntegratorPi.integrate circle (fun x => Ok (f x)) = Ok a
    /\ CircularIntegratorPi.integrate circle (fun x => Ok (g x)) = Ok b
    /\ CircularIntegratorPi.integrate circle (fun x => Ok (c * f x + g x)%C)
       = Ok (c * a + b)%C.
Proof.
  unfold CircularIntegratorPi.integrate.
  destruct (integrate_loop_linear c f g
              (CircularIntegratorPi.rotationFactors circle) 0
              (RtoC 0) (RtoC 0)) as [a [b [Ha [Hb Hab]]]].
  rewrite Ha, Hb.
  replace (RtoC 0) with (c * RtoC 0 + RtoC 0)%C by C_ring.
  rewrite Hab. cbn [bind].
  eexists; eexists. split; [reflexivity|]. split; [reflexivity|].
  f_equal. apply C_eq; cbn [Re Im RtoC Cadd Cmul Cdivr]; unfold Rdiv; ring.
Qed.

Lemma integrate_loop_first_failure (func : vec2 -> result C) (e : exn)
      (rf : list vec2) (j : nat) (x : vec2) (n : nat) (sum : C) :
  nth_error rf j = Some x ->
  func x = Raise e ->
  (forall i y, (i < j)%nat -> nth_error rf i = Some y -> succeeds (func y)) ->
  CircularIntegratorPi.integrate_loop func rf n sum = Raise e.
Proof.
  revert j n sum; induction rf as [|y rf IH]; intros j n sum Hj Hx Hbefore.
  - destruct j; discriminate.
  - cbn [CircularIntegratorPi.integrate_loop]. destruct j as [|j].
    + injection Hj as ->. rewrite Hx. reflexivity.
    + destruct (Hbefore 0%nat y ltac:(lia) eq_refl) as [v ->]. cbn [bind].
      apply (IH j); [exact Hj|exact Hx|].
      intros i y' Hi Hy'. apply (Hbefore (S i)); [lia|exact Hy'].
Qed.

(** [integrate] stops at the first sample where the integrand fails and
    passes that exception on: if the integrand raises [e] at sample [j] and
    returns at every earlier sample, the call raises [e]. *)
Theorem integrate_first_failure (circle : CircularIntegratorPi.t)
        (func : vec2 -> result C) (e : exn) (j : nat) (x : vec2)
        (Hj : nth_error (CircularIntegratorPi.rotationFactors circle) j = Some x)
        (Hx : func x = Raise e)
        (Hbefore : forall i y, (i < j)%nat ->
             nth_error (CircularIntegratorPi.rotationFactors circle) i = Some y ->
             succeeds (func y)) :
  CircularIntegratorPi.integrate circle func = Raise e.
Proof.
  unfold CircularIntegratorPi.integrate.
  rewrite (integrate_loop_first_failure func e _ j x 0 (RtoC 0) Hj Hx Hbefore).
  reflexivity.
Qed.

Lemma integrate_first_failure_witness :
  CircularIntegratorPi.integrate
    (CircularIntegratorPi.Build 1 [V2 1 0; V2 0 1])
    (fun v => if Req_dec_T (x0 v) 0 then Raise ValueError else Ok (RtoC 1))
  = Raise ValueError.
Proof.
  apply (integrate_first_failure
           (CircularIntegratorPi.Build 1 [V2 1 0; V2 0 1])
           (fun v => if Req_dec_T (x0 v) 0 then Raise ValueError
                     else Ok (RtoC 1))
           ValueError 1 (V2 0 1)).
  - reflexivity.
  - cbn [x0]. destruct (Req_dec_T 0 0) as [_|H]; [reflexivity|].
    exfalso; apply H; reflexivity.
  - intros i y Hi Hy. destruct i as [|i]; [|lia].
    cbn in Hy. injection Hy as <-. cbn [x0].
    destruct (Req_dec_T 1 0) as [H|_]; [lra|apply succeeds_Ok].
Defined.

(** ** The line quadratures: linearity and edge cases *)

Lemma ComplexQuadGenerator_loop_linear (c : C) (f g : vec2 -> C)
      (start vec : vec2) (rows : list (R * R)) (s1 s2 : C) :
  exists a b : C,
    ComplexQuadGenerator_loop (fun x => Ok (f x)) start vec rows s1 = Ok a
    /\ ComplexQuadGenerator_loop (fun x => Ok (g x)) start vec rows s2 = Ok b
    /\ ComplexQuadGenerator_loop (fun x => Ok (c * f x + g x)%C) start vec rows
         (c * s1 + s2)%C
       = Ok (c * a + b)%C.
Proof.
  revert s1 s2; induction rows as [|row rows IH]; intros s1 s2.
  - exists s1, s2. repeat split; reflexivity.
  - cbn [ComplexQuadGenerator_loop bind].
    set (x := add2 start (scal2 (fst row ^ 2) vec)).
    destruct (IH (s1 + RtoC (snd row) * f x * RtoC (fst row))%C
                 (s2 + RtoC (snd row) * g x * RtoC (fst row))%C)
      as [a [b [Ha [Hb Hab]]]].
    exists a, b. split; [exact Ha|]. split; [exact Hb|].
    rewrite <- Hab. f_equal. C_ring.
Qed.

(** [ComplexQuadGenerator] is linear on integrands that do not fail. *)
Theorem ComplexQuadGenerator_linear (c : C) (f g : vec2 -> C)
        (start end_ : vec2) :
  exists a b : C,
    ComplexQuadGenerator (fun x => Ok (f x)) start end_ = Ok a
    /\ ComplexQuadGenerator (fun x => Ok (g x)) start end_ = Ok b
    /\ ComplexQuadGenerator (fun x => Ok (c * f x + g x)%C) start end_
       = Ok (c * a + b)%C.
Proof.
  unfold ComplexQuadGenerator.
  destruct (ComplexQuadGenerator_loop_linear c f g start (sub2 end_ start)
              samples (RtoC 0) (RtoC 0)) as [a [b [Ha [Hb Hab]]]].
  rewrite Ha, Hb.
  replace (RtoC 0) with (c * RtoC 0 + RtoC 0)%C by C_ring.
  rewrite Hab. cbn [bind].
  eexists; eexists. split; [reflexivity|]. split; [reflexivity|].
  f_equal. C_ring.
Qed.

Lemma norm2_zero_segment (q : vec2) : norm2 (sub2 q q) = 0.
Proof.
  unfold norm2, sub2. cbn [x0 x1].
  replace ((x0 q - x0 q) * (x0 q - x0 q) + (x1 q - x1 q) * (x1 q - x1 q))
    with 0 by ring.
  apply sqrt_0.
Qed.

Lemma ComplexQuadGenerator_zero_length (func : vec2 -> result C) (q : vec2) :
  (forall x, succeeds (func x)) ->
  ComplexQuadGenerator func q q = Ok (RtoC 0).
Proof.
  intros Hf. unfold ComplexQuadGenerator.
  destruct (ComplexQuadGenerator_loop_succeeds func q (sub2 q q) samples
              (RtoC 0) Hf) as [s ->].
  cbn [bind]. rewrite norm2_zero_segment. f_equal. C_ring.
Qed.

(** On a segment of length zero [ComplexQuadGenerator] returns 0, whatever
    values an integrand that does not fail takes. *)
Theorem ComplexQuadGenerator_degenerate (func : vec2 -> result C) (q : vec2)
        (Hf : forall x, succeeds (func x)) :
  ComplexQuadGenerator func q q = Ok (RtoC 0).
Proof. apply ComplexQuadGenerator_zero_length, Hf. Qed.

Lemma ComplexQuadGenerator_degenerate_witness :
  ComplexQuadGenerator one (V2 1 2) (V2 1 2) = Ok (RtoC 0).
Proof.
  apply (ComplexQuadGenerator_degenerate one (V2 1 2)).
  intros x. apply succeeds_Ok.
Defined.

(** The segment count of [ComplexQuadCone]: the count 0 ends in
    [ZeroDivisionError]; a negative count returns 0 without evaluating the
    integrand, even one that always fails. *)
Theorem ComplexQuadCone_bad_segments (func : vec2 -> result C)
        (start end_ : vec2) :
  ComplexQuadCone func start end_ 0 = Raise ZeroDivisionError
  /\ forall n : Z, (n < 0)%Z -> ComplexQuadCone func start end_ n = Ok (RtoC 0).
Proof.
  split; [reflexivity|]. intros n Hn. unfold ComplexQuadCone.
  destruct (Z.eqb_spec n 0); [lia|].
  destruct n; try lia. reflexivity.
Qed.

Lemma vec2_eta (v : vec2) : V2 (x0 v) (x1 v) = v.
Proof. destruct v; reflexivity. Qed.

Lemma add2_scal2_zero (s d : vec2) : add2 s (scal2 0 d) = s.
Proof.
  unfold add2, scal2. cbn [x0 x1]. rewrite <- (vec2_eta s) at 3.
  f_equal; ring.
Qed.

Lemma add2_scal2_one (s e : vec2) :
  add2 s (scal2 1 (scal2 (1 / 1) (sub2 e s))) = e.
Proof.
  unfold add2, scal2, sub2. cbn [x0 x1]. rewrite <- (vec2_eta e) at 3.
  f_equal; field.
Qed.

(** With one segment, the default, [ComplexQuadCone] is the baseline
    quadrature [ComplexQuad] over the whole path. *)
Theorem ComplexQuadCone_single_segment (func : vec2 -> result C)
        (start end_ : vec2) :
  ComplexQuadCone func start end_ 1 = ComplexQuad func start end_.
Proof.
  unfold ComplexQuadCone. cbn [Z.eqb Z.to_nat].
  change (Pos.to_nat 1) with 1%nat.
  cbn [seq ComplexQuadCone_loop Nat.add INR].
  rewrite add2_scal2_zero, add2_scal2_one.
  destruct (ComplexQuad func start end_) as [v|e]; cbn [bind]; [|reflexivity].
  f_equal. C_ring.
Qed.

Lemma ComplexQuad_one_value (start end_ : vec2) :
  ComplexQuad one start end_ =
  Ok (RtoC (weight_total * norm2 (sub2 end_ start))).
Proof.
  unfold ComplexQuad, samples, one, weight_total.
  cbn [ComplexQuad_loop bind fst snd].
  f_equal. apply C_eq; cbn [Re Im RtoC Cadd Cmul]; lra.
Qed.

Lemma norm2_scal2 (s : R) (v : vec2) : 0 <= s -> norm2 (scal2 s v) = s * norm2 v.
Proof.
  intros Hs. unfold norm2, scal2. cbn [x0 x1].
  replace (s * x0 v * (s * x0 v) + s * x1 v * (s * x1 v))
    with (s * s * (x0 v * x0 v + x1 v * x1 v)) by ring.
  rewrite sqrt_mult; [|nra|nra].
  rewrite sqrt_square by exact Hs. reflexivity.
Qed.

Lemma cone_step (start delta : vec2) (s : nat) :
  sub2 (add2 start (scal2 (INR (s + 1)) delta))
       (add2 start (scal2 (INR s) delta)) = delta.
Proof.
  unfold sub2, add2, scal2. cbn [x0 x1]. rewrite plus_INR. cbn [INR].
  rewrite <- (vec2_eta delta) at 5. f_equal; ring.
Qed.

Lemma ComplexQuadCone_loop_one (start delta : vec2) (ss : list nat) (sum : C) :
  ComplexQuadCone_loop one start delta ss sum =
  Ok (sum + RtoC (INR (List.length ss) * (weight_total * norm2 delta)))%C.
Proof.
  revert sum; induction ss as [|s ss IH]; intros sum.
  - cbn [ComplexQuadCone_loop List.length INR]. f_equal. C_ring.
  - cbn [ComplexQuadCone_loop]. rewrite ComplexQuad_one_value, cone_step.
    cbn [bind]. rewrite IH. f_equal.
    change (List.length (s :: ss)) with (S (List.length ss)).
    rewrite S_INR. C_ring.
Qed.

(** On the constant function 1, the cone quadrature returns the same value
    for every segment count of at least 1: the sum of the weights times the
    length of the path, which the baseline quadrature (the 8-point rule as
    the spec describes it) returns for the whole path. *)
Theorem ComplexQuadCone_one_any_segments (start end_ : vec2) (n : Z)
        (Hn : (1 <= n)%Z) :
  ComplexQuadCone one start end_ n =
  Ok (RtoC (weight_total * norm2 (sub2 end_ start)))
  /\ ComplexQuadCone one start end_ n = ComplexQuad one start end_.
Proof.
  assert (H : ComplexQuadCone one start end_ n =
              Ok (RtoC (weight_total * norm2 (sub2 end_ start)))).
  { unfold ComplexQuadCone. destruct (Z.eqb_spec n 0); [lia|].
    rewrite ComplexQuadCone_loop_one, length_seq.
    assert (Hpos : 0 < IZR n) by (apply IZR_lt; lia).
    rewrite norm2_scal2
      by (unfold Rdiv; rewrite Rmult_1_l; left; apply Rinv_0_lt_compat, Hpos).
    rewrite INR_IZR_INZ, Z2Nat.id by lia.
    f_equal. apply C_eq; cbn [Re Im RtoC Cadd]; field; lra. }
  split; [exact H|]. rewrite H, ComplexQuad_one_value. reflexivity.
Qed.

Lemma ComplexQuadCone_one_any_segments_witness :
  ComplexQuadCone one (V2 1 0) (V2 0 1) 5 =
  Ok (RtoC (weight_total * norm2 (sub2 (V2 0 1) (V2 1 0)))).
Proof.
  apply (ComplexQuadCone_one_any_segments (V2 1 0) (V2 0 1) 5). lia.
Defined.

(** ** The segment count and the degenerate element *)

Lemma nSections_of_degenerate (q : vec2) :
  nSections_of q q =
  Raise (if Req_dec_T (x0 q) 0 then ValueError else OverflowError).
Proof.
  unfold nSections_of, int_of_quotient. rewrite norm2_zero_segment.
  destruct (Req_dec_T 0 0) as [_|H]; [|exfalso; apply H; reflexivity].
  pose proof PI_RGT_0 as Hpi. cbn [x0 scal2 add2].
  destruct (Req_dec_T (0.5 * (x0 q + x0 q) * PI) 0) as [E|E],
           (Req_dec_T (x0 q) 0) as [E'|E']; try reflexivity; exfalso.
  - apply E'. assert (H : (x0 q) * PI = 0) by lra.
    apply Rmult_integral in H. destruct H; [assumption|lra].
  - apply E. rewrite E'. ring.
Qed.

(** An element of length zero ([qa = qb]) makes every evaluator fail, for
    every wavenumber, point and flag: the segment count is the conversion to
    an integer of a quotient by zero, which raises [ValueError] when the
    radial coordinate is 0 (the quotient is not a number) and
    [OverflowError] otherwise (the quotient is infinite). *)
Theorem degenerate_element_raises (Normal2D : vec2 -> vec2 -> vec2) (k : R)
        (p vecp q : vec2) (pOnElement : bool) :
  ComputeL k p q q pOnElement =
  Raise (if Req_dec_T (x0 q) 0 then ValueError else OverflowError)
  /\ ComputeM Normal2D k p q q pOnElement =
     Raise (if Req_dec_T (x0 q) 0 then ValueError else OverflowError)
  /\ ComputeMt k p vecp q q pOnElement =
     Raise (if Req_dec_T (x0 q) 0 then ValueError else OverflowError)
  /\ ComputeN Normal2D k p vecp q q pOnElement =
     Raise (if Req_dec_T (x0 q) 0 then ValueError else OverflowError).
Proof.
  unfold ComputeL, ComputeL_body, ComputeM, ComputeMt, ComputeN, ComputeN_body.
  cbv zeta. rewrite nSections_of_degenerate.
  repeat split; reflexivity.
Qed.

Lemma norm2_sub2_sym (a b : vec2) : norm2 (sub2 a b) = norm2 (sub2 b a).
Proof. unfold norm2, sub2. cbn [x0 x1]. f_equal. ring. Qed.

Lemma int_of_quotient_scale (s a b : R) :
  0 < s -> int_of_quotient (s * a) (s * b) = int_of_quotient a b.
Proof.
  intros Hs. unfold int_of_quotient.
  destruct (Req_dec_T b 0) as [Eb|Eb], (Req_dec_T (s * b) 0) as [Esb|Esb].
  - destruct (Req_dec_T a 0) as [Ea|Ea], (Req_dec_T (s * a) 0) as [Esa|Esa];
      try reflexivity; exfalso.
    + apply Esa. rewrite Ea. ring.
    + apply Ea. apply Rmult_integral in Esa. destruct Esa; [lra|assumption].
  - exfalso. apply Esb. rewrite Eb. ring.
  - exfalso. apply Eb. apply Rmult_integral in Esb. destruct Esb; [lra|assumption].
  - f_equal. f_equal. field. split; [exact Eb|lra].
Qed.

(** The segment count depends on the shape of the element only: it is the
    same when the end points are exchanged, when the element is shifted along
    the axis, and when it is scaled by a positive factor. *)
Theorem nSections_of_invariant (qa qb : vec2) (s t : R) (Hs : 0 < s) :
  nSections_of qb qa = nSections_of qa qb
  /\ nSections_of (add2 qa (V2 0 t)) (add2 qb (V2 0 t)) = nSections_of qa qb
  /\ nSections_of (scal2 s qa) (scal2 s qb) = nSections_of qa qb.
Proof.
  split; [|split].
  - unfold nSections_of. rewrite (norm2_sub2_sym qa qb).
    cbn [x0 scal2 add2]. rewrite (Rplus_comm (x0 qb) (x0 qa)). reflexivity.
  - unfold nSections_of, norm2, sub2, add2, scal2. cbn [x0 x1].
    replace (x0 qa + 0 + (x0 qb + 0)) with (x0 qa + x0 qb) by ring.
    replace (x0 qb + 0 - (x0 qa + 0)) with (x0 qb - x0 qa) by ring.
    replace (x1 qb + t - (x1 qa + t)) with (x1 qb - x1 qa) by ring.
    reflexivity.
  - unfold nSections_of.
    replace (sub2 (scal2 s qb) (scal2 s qa)) with (scal2 s (sub2 qb qa))
      by (unfold sub2, scal2; cbn [x0 x1]; f_equal; ring).
    rewrite norm2_scal2 by lra.
    replace (x0 (scal2 0.5 (add2 (scal2 s qa) (scal2 s qb))) * PI)
      with (s * (x0 (scal2 0.5 (add2 qa qb)) * PI))
      by (cbn [x0 scal2 add2]; ring).
    rewrite int_of_quotient_scale by exact Hs. reflexivity.
Qed.

Lemma nSections_of_invariant_witness :
  nSections_of (scal2 2 (V2 1 0)) (scal2 2 (V2 2 0)) =
  nSections_of (V2 1 0) (V2 2 0).
Proof.
  apply (nSections_of_invariant (V2 1 0) (V2 2 0) 2 0). lra.
Defined.

(** On an element with [qa <> qb] and non-negative radial coordinates the
    segment count [n] cuts the half-circle through the midpoint of the
    element into sections of about the length of the element, as the comment
    in the code says: each section is shorter than the element
    ([q_r * pi < n * len]) and one section fewer would not be
    ([(n - 1) * len <= q_r * pi]). *)
Theorem nSections_of_section_length (qa qb : vec2)
        (Hne : qa <> qb) (Ha : 0 <= x0 qa) (Hb : 0 <= x0 qb) :
  exists n : Z,
    nSections_of qa qb = Ok n
    /\ x0 (scal2 0.5 (add2 qa qb)) * PI < IZR n * norm2 (sub2 qb qa)
    /\ (IZR n - 1) * norm2 (sub2 qb qa) <= x0 (scal2 0.5 (add2 qa qb)) * PI.
Proof.
  destruct (nSections_of_valid qa qb Hne Ha Hb) as [Heq _].
  exists (derived_segment_count qa qb). split; [exact Heq|].
  pose proof (element_length_positive qa qb Hne) as Hlen.
  unfold derived_segment_count.
  set (a := x0 (scal2 0.5 (add2 qa qb)) * PI).
  set (len := norm2 (sub2 qb qa)) in *.
  destruct (base_Int_part (a / len)) as [Hle Hgt].
  rewrite plus_IZR.
  assert (Ha' : a = a / len * len) by (field; lra).
  split.
  - rewrite Ha' at 1. apply Rmult_lt_compat_r; [exact Hlen|lra].
  - rewrite Ha' at 2. apply Rmult_le_compat_r; [lra|lra].
Qed.

Lemma nSections_of_section_length_witness :
  exists n : Z,
    nSections_of (V2 1 0) (V2 2 0) = Ok n
    /\ x0 (scal2 0.5 (add2 (V2 1 0) (V2 2 0))) * PI
       < IZR n * norm2 (sub2 (V2 2 0) (V2 1 0))
    /\ (IZR n - 1) * norm2 (sub2 (V2 2 0) (V2 1 0))
       <= x0 (scal2 0.5 (add2 (V2 1 0) (V2 2 0))) * PI.
Proof.
  apply (nSections_of_section_length (V2 1 0) (V2 2 0)).
  - apply V2_neq. left. lra.
  - simpl. lra.
  - simpl. lra.
Defined.

(** ** The kernels at the wavenumber 0 *)

Lemma ikR_zero (RR : R) : ikR 0 RR = RtoC 0.
Proof. unfold ikR. C_ring. Qed.

Lemma Cexp_ikR_zero (RR : R) : Cexp (ikR 0 RR) = RtoC 1.
Proof. rewrite Cexp_ikR, Rmult_0_l, cos_0, sin_0. reflexivity. Qed.

Ltac kernel_at_zero :=
  cbv zeta; rewrite ?Cexp_ikR_zero, ?ikR_zero; f_equal;
  apply C_eq; cbn [Re Im RtoC Cadd Csub Cneg Cmul Cdivr];
  unfold Rdiv; ring.

(** The formulas of the [k != 0.0] branches, taken at [k = 0], give the
    formulas of the [k == 0.0] branches: the dynamic kernels of [ComputeL],
    [ComputeM] and [ComputeN] become the static ones, the dynamic kernel of
    [ComputeMt] becomes [dotRnP / (norm(rr) * dot(rr, rr))] with [dotRnP]
    taken on [vecp] in both terms, and the correction kernels of the
    on-element branches of [ComputeL] and [ComputeN] vanish. *)
Theorem kernels_agree_at_zero (vecp vec_q : vec2) (p3 : vec3) (r z : R)
        (x : vec2) :
  L_circleFunc_dynamic 0 p3 r z x = L_circleFunc_static p3 r z x
  /\ M_circleFunc_dynamic 0 vec_q p3 r z x = M_circleFunc_static vec_q p3 r z x
  /\ N_circleFunc_dynamic 0 vecp vec_q p3 r z x =
     N_circleFunc_static vecp vec_q p3 r z x
  /\ Mt_circleFunc_dynamic 0 vecp p3 r z x =
     Ok (RtoC ((x0 vecp * c0 (sub3 (ring_point r z x) p3)
                + x1 vecp * c2 (sub3 (ring_point r z x) p3))
               / (norm3 (sub3 (ring_point r z x) p3)
                  * dot3 (sub3 (ring_point r z x) p3)
                         (sub3 (ring_point r z x) p3))))
  /\ L_circleFunc_regular 0 p3 r z x = Ok (RtoC 0)
  /\ N_circleFunc_regular 0 vecp vec_q p3 r z x = Ok (RtoC 0).
Proof.
  repeat split.
  - unfold L_circleFunc_dynamic, L_circleFunc_static. kernel_at_zero.
  - unfold M_circleFunc_dynamic, M_circleFunc_static. kernel_at_zero.
  - unfold N_circleFunc_dynamic, N_circleFunc_static. kernel_at_zero.
  - unfold Mt_circleFunc_dynamic. kernel_at_zero.
  - unfold L_circleFunc_regular. kernel_at_zero.
  - unfold N_circleFunc_regular. kernel_at_zero.
Qed.

(** ** The cones of the static hypersingular evaluation *)





(** ** ComputeL on the element *)

Lemma generatorFunc_after_init (n : Z) (p : vec2)
      (circleFunc : vec3 -> R -> R -> vec2 -> result C) (x : vec2) :
  succeeds (CircularIntegratorPi.init n) ->
  (forall p3 r z y, succeeds (circleFunc p3 r z y)) ->
  succeeds (generatorFunc n p circleFunc x).
Proof.
  intros [circle Hc] Hf. unfold generatorFunc. rewrite Hc. cbn [bind].
  unfold CircularIntegratorPi.integrate.
  apply succeeds_bind.
  - apply succeeds_bind.
    + apply integrate_loop_succeeds. intros y. apply Hf.
    + intros s. apply succeeds_Ok.
  - intros v. apply succeeds_Ok.
Qed.

Lemma generatorFunc_init_fails (n : Z) (p : vec2)
      (circleFunc : vec3 -> R -> R -> vec2 -> result C) (x : vec2) (e : exn) :
  CircularIntegratorPi.init n = Raise e ->
  generatorFunc n p circleFunc x = Raise e.
Proof. intros H. unfold generatorFunc. rewrite H. reflexivity. Qed.

Lemma ComplexQuadGenerator_raises (func : vec2 -> result C) (e : exn)
      (start end_ : vec2) :
  (forall x, func x = Raise e) -> ComplexQuadGenerator func start end_ = Raise e.
Proof.
  intros H. unfold ComplexQuadGenerator, samples.
  cbn [ComplexQuadGenerator_loop]. rewrite H. reflexivity.
Qed.

Lemma static_piece_cases (n : Z) (p : vec2) :
  (forall x, succeeds (generatorFunc n p L_circleFunc_static x))
  \/ exists e, forall x, generatorFunc n p L_circleFunc_static x = Raise e.
Proof.
  destruct (CircularIntegratorPi.init n) as [circle|e] eqn:Hinit.
  - left. intros x. apply generatorFunc_after_init.
    + rewrite Hinit. apply succeeds_Ok.
    + apply L_circleFunc_static_succeeds.
  - right. exists e. intros x. apply generatorFunc_init_fails, Hinit.
Qed.

(** For [k = 0] and [p] on the element, [ComputeL] does not depend on the
    order of the end points: exchanging [qa] and [qb] gives the same value,
    or the same exception. *)
Theorem ComputeL_static_on_symmetric (p qa qb : vec2) :
  ComputeL 0 p qb qa true = ComputeL 0 p qa qb true.
Proof.
  rewrite !ComputeL_static_on.
  assert (Hn : nSections_of qb qa = nSections_of qa qb).
  { unfold nSections_of. rewrite (norm2_sub2_sym qa qb).
    cbn [x0 scal2 add2]. rewrite (Rplus_comm (x0 qb) (x0 qa)). reflexivity. }
  rewrite Hn. destruct (nSections_of qa qb) as [n|e]; [|reflexivity].
  cbn [bind].
  destruct (static_piece_cases (2 * n) p) as [Hok|[e Hfail]].
  - destruct (ComplexQuadGenerator_succeeds _ p qa Hok) as [a ->].
    destruct (ComplexQuadGenerator_succeeds _ p qb Hok) as [b ->].
    cbn [bind]. f_equal. C_ring.
  - rewrite !(ComplexQuadGenerator_raises _ e _ _ Hfail). reflexivity.
Qed.

(** For [k = 0] and [p] on the element at its end point [qa], the piece from
    [p] to [qa] has length zero and contributes 0: on an element with
    [qa <> qb], [qa] off the axis and [qb] of non-negative radial coordinate,
    [ComputeL] is the single substituted-singularity quadrature from [qa] to
    [qb]. *)
Theorem ComputeL_static_at_end_point (qa qb : vec2)
        (Hne : qa <> qb) (Ha : 0 < x0 qa) (Hb : 0 <= x0 qb) :
  ComputeL 0 qa qa qb true =
  ComplexQuadGenerator
    (generatorFunc (2 * derived_segment_count qa qb) qa L_circleFunc_static)
    qa qb.
Proof.
  rewrite ComputeL_static_on.
  destruct (nSections_of_valid qa qb Hne (Rlt_le _ _ Ha) Hb) as [-> Hge].
  cbn [bind].
  assert (Hgen : forall x, succeeds
            (generatorFunc (2 * derived_segment_count qa qb) qa
               L_circleFunc_static x)).
  { intros x. apply generatorFunc_succeeds; [lia|].
    apply L_circleFunc_static_succeeds. }
  rewrite (ComplexQuadGenerator_zero_length _ qa Hgen). cbn [bind].
  destruct (ComplexQuadGenerator _ qa qb) as [b|e]; cbn [bind]; [|reflexivity].
  f_equal. C_ring.
Qed.

Lemma ComputeL_static_at_end_point_witness :
  ComputeL 0 (V2 1 0) (V2 1 0) (V2 2 0) true =
  ComplexQuadGenerator
    (generatorFunc (2 * derived_segment_count (V2 1 0) (V2 2 0)) (V2 1 0)
       L_circleFunc_static)
    (V2 1 0) (V2 2 0).
Proof.
  apply (ComputeL_static_at_end_point (V2 1 0) (V2 2 0)).
  - apply V2_neq. left. lra.
  - simpl. lra.
  - simpl. lra.
Defined.

(** ** Post-processing *)

Lemma c_default_nonzero : c_default <> 0.
Proof. unfold c_default. lra. Qed.

(** Frequency and wavenumber convert into each other: for a speed of sound
    [c <> 0], converting a wavenumber to a frequency and back returns the
    wavenumber, and a wavenumber obtained from a frequency converts back to
    that frequency. *)
Theorem frequency_wavenumber_round_trip (k f c : R) (Hc : c <> 0) :
  frequencyToWavenumber (wavenumberToFrequency k c) c = Ok k
  /\ rmap (fun k' => wavenumberToFrequency k' c) (frequencyToWavenumber f c)
     = Ok f.
Proof.
  pose proof PI_RGT_0 as Hpi.
  unfold frequencyToWavenumber, wavenumberToFrequency.
  destruct (Req_dec_T c 0) as [E|_]; [contradiction|]. cbn [rmap].
  replace 2.0 with 2 by lra. replace 0.5 with (1 / 2) by lra.
  split; f_equal; field; split; lra.
Qed.

Lemma frequency_wavenumber_round_trip_witness :
  frequencyToWavenumber (wavenumberToFrequency 2 c_default) c_default = Ok 2.
Proof.
  apply (frequency_wavenumber_round_trip 2 100 c_default).
  apply c_default_nonzero.
Defined.

(** [frequencyToWavenumber] fails exactly for the speed of sound 0, with
    [ZeroDivisionError]; [wavenumberToFrequency] is linear in the wavenumber
    and gives the frequency 0 for it at the speed 0. *)
Theorem frequencyToWavenumber_zero_speed (f k k' a c : R) :
  frequencyToWavenumber f 0 = Raise ZeroDivisionError
  /\ (succeeds (frequencyToWavenumber f c) <-> c <> 0)
  /\ wavenumberToFrequency (a * k + k') c =
     a * wavenumberToFrequency k c + wavenumberToFrequency k' c
  /\ wavenumberToFrequency k 0 = 0.
Proof.
  pose proof PI_RGT_0 as Hpi.
  unfold frequencyToWavenumber, wavenumberToFrequency.
  split; [|split; [|split]].
  - destruct (Req_dec_T 0 0) as [_|H]; [reflexivity|].
    exfalso; apply H; reflexivity.
  - destruct (Req_dec_T c 0) as [E|E].
    + split; [intros [v Hv]; discriminate|intros H; contradiction].
    + split; [intros _; exact E|intros _; apply succeeds_Ok].
  - replace 0.5 with (1 / 2) by lra. field. lra.
  - replace 0.5 with (1 / 2) by lra. field. lra.
Qed.

Lemma Cexp_minus_i (w t : R) :
  Cexp (- Ci * RtoC w * RtoC t) = mkC (cos (w * t)) (- sin (w * t)).
Proof.
  unfold Cexp. cbn [Re Im Ci RtoC Cneg Cmul].
  replace ((- 0 * w - - (1) * 0) * t - (- 0 * 0 + - (1) * w) * 0) with 0 by ring.
  replace ((- 0 * w - - (1) * 0) * 0 + (- 0 * 0 + - (1) * w) * t)
    with (- (w * t)) by ring.
  rewrite exp_0, cos_neg, sin_neg. f_equal; ring.
Qed.

(** The sound pressure has a modulus that does not depend on the time:
    its squared modulus is [(density * k * c)^2] times that of the potential.
    At the time 0 it is [i * density * k * c * phi], and at the wavenumber 0
    it is 0. *)
Theorem soundPressure_modulus (k : R) (phi : C) (t c density : R) :
  Cnorm2 (soundPressure k phi t c density)
  = (density * (k * c)) ^ 2 * Cnorm2 phi
  /\ soundPressure k phi 0 c density
     = (Ci * RtoC (density * (k * c)) * phi)%C
  /\ soundPressure 0 phi t c density = RtoC 0.
Proof.
  unfold soundPressure. cbv zeta. rewrite !Cexp_minus_i.
  split; [|split].
  - pose proof (sin2_cos2 (k * c * t)) as H. unfold Rsqr in H.
    unfold Cnorm2. cbn [Re Im Ci RtoC Cmul].
    set (cs := cos (k * c * t)) in *. set (sn := sin (k * c * t)) in *.
    transitivity ((density * (k * c)) ^ 2 * (sn * sn + cs * cs)
                  * (Re phi * Re phi + Im phi * Im phi)); [ring|].
    rewrite H. ring.
  - rewrite Rmult_0_r, cos_0, sin_0. C_ring.
  - C_ring.
Qed.

(** The acoustic intensity is symmetric in pressure and velocity, is half the
    squared modulus (so never negative) when the two coincide, and is 0 when
    the velocity is the pressure turned by a quarter period. *)
Theorem AcousticIntensity_properties (pressure velocity : C) :
  AcousticIntensity pressure velocity = AcousticIntensity velocity pressure
  /\ AcousticIntensity pressure pressure = 0.5 * Cnorm2 pressure
  /\ 0 <= AcousticIntensity pressure pressure
  /\ AcousticIntensity pressure (Ci * pressure)%C = 0.
Proof.
  unfold AcousticIntensity, Cnorm2. cbn [Re Im Ci Cconj Cmul].
  repeat split; try ring.
  assert (H : 0 <= Re pressure * Re pressure + Im pressure * Im pressure)
    by nra.
  nra.
Qed.

Lemma Cabs_scale (s : R) (z : C) : 0 <= s -> Cabs (RtoC s * z) = s * Cabs z.
Proof.
  intros Hs. unfold Cabs. cbn [Re Im RtoC Cmul].
  replace ((s * Re z - 0 * Im z) * (s * Re z - 0 * Im z)
           + (s * Im z + 0 * Re z) * (s * Im z + 0 * Re z))
    with (s * s * (Re z * Re z + Im z * Im z)) by ring.
  rewrite sqrt_mult; [|nra|nra].
  rewrite sqrt_square by exact Hs. reflexivity.
Qed.

Lemma Cabs_positive (z : C) : z <> RtoC 0 -> 0 < Cabs z.
Proof.
  intros Hz. unfold Cabs. apply sqrt_lt_R0.
  destruct (Req_dec_T (Re z) 0) as [Er|Er].
  - destruct (Req_dec_T (Im z) 0) as [Ei|Ei].
    + exfalso. apply Hz. apply C_eq; assumption.
    + nra.
  - nra.
Qed.

Lemma ln_10_positive : 0 < ln 10.
Proof. rewrite <- ln_1. apply ln_increasing; lra. Qed.

(** The sound magnitude is a level in decibels relative to 2e-5: scaling a
    non-zero pressure by a positive real factor [s] adds [20 * log10 s], so a
    factor 10 adds 20 dB. *)
Theorem SoundMagnitude_scale (s : R) (pressure : C)
        (Hs : 0 < s) (Hp : pressure <> RtoC 0) :
  SoundMagnitude (RtoC s * pressure) = SoundMagnitude pressure + 20 * log10 s
  /\ SoundMagnitude (RtoC 10 * pressure) = SoundMagnitude pressure + 20.
Proof.
  pose proof ln_10_positive as Hln.
  assert (Hgen : forall u, 0 < u ->
            SoundMagnitude (RtoC u * pressure) =
            SoundMagnitude pressure + 20 * log10 u).
  { intros u Hu. unfold SoundMagnitude, log10.
    replace ((RtoC u * pressure) /r 2e-5)%C
      with (RtoC u * (pressure /r 2e-5))%C
      by (apply C_eq; cbn [Re Im RtoC Cmul Cdivr]; unfold Rdiv; ring).
    rewrite Cabs_scale by lra.
    assert (Hq : (pressure /r 2e-5)%C <> RtoC 0).
    { intros E. apply Hp.
      assert (Er : Re (pressure /r 2e-5)%C = 0) by (rewrite E; reflexivity).
      assert (Ei : Im (pressure /r 2e-5)%C = 0) by (rewrite E; reflexivity).
      cbn [Re Im Cdivr] in Er, Ei. apply C_eq; cbn [Re Im RtoC]; lra. }
    rewrite ln_mult by (try exact Hu; apply Cabs_positive, Hq).
    field. lra. }
  split; [apply Hgen, Hs|].
  rewrite Hgen by lra. unfold log10. f_equal. field. lra.
Qed.

Lemma SoundMagnitude_scale_witness :
  SoundMagnitude (RtoC 2 * RtoC 1) = SoundMagnitude (RtoC 1) + 20 * log10 2.
Proof.
  apply (SoundMagnitude_scale 2 (RtoC 1)).
  - lra.
  - intros E. assert (H : Re (RtoC 1) = Re (RtoC 0)) by (rewrite E; reflexivity).
    cbn [Re RtoC] in H. lra.
Defined.

(** ** ComputeM at an end point *)

Lemma ComplexQuad_zero_length (func : vec2 -> result C) (q : vec2) :
  (forall x, succeeds (func x)) -> ComplexQuad func q q = Ok (RtoC 0).
Proof.
  intros Hf. unfold ComplexQuad.
  destruct (ComplexQuad_loop_succeeds func q (sub2 q q) samples (RtoC 0) Hf)
    as [s ->].
  cbn [bind]. rewrite norm2_zero_segment. f_equal. C_ring.
Qed.

(** When [p] is the end point [qa] of the element, splitting the path at [p]
    changes nothing for [ComputeM]: on an element with [qa <> qb], [qa] off
    the axis and [qb] of non-negative radial coordinate, the value with the
    flag set equals the value without it, for every wavenumber (the piece
    from [qa] to [p] has length zero and the baseline quadrature, as the
    spec describes it, scales by the length). *)
Theorem ComputeM_at_end_point (Normal2D : vec2 -> vec2 -> vec2) (k : R)
        (qa qb : vec2) (Hne : qa <> qb) (Ha : 0 < x0 qa) (Hb : 0 <= x0 qb) :
  ComputeM Normal2D k qa qa qb true = ComputeM Normal2D k qa qa qb false.
Proof.
  unfold ComputeM. cbv zeta.
  destruct (nSections_of_valid qa qb Hne (Rlt_le _ _ Ha) Hb) as [-> Hge].
  cbn [bind].
  destruct (Req_dec_T k 0) as [E|E].
  - assert (Hgen : forall x, succeeds
      (generatorFunc (derived_segment_count qa qb) qa
         (M_circleFunc_static (Normal2D qa qb)) x)).
    { intros x. apply generatorFunc_succeeds; [exact Hge|].
      intros p3 r z y. apply succeeds_Ok. }
    rewrite (ComplexQuad_zero_length _ qa Hgen). cbn [bind].
    destruct (ComplexQuad _ qa qb) as [b|e]; cbn [bind]; [|reflexivity].
    f_equal. C_ring.
  - assert (Hgen : forall x, succeeds
      (generatorFunc (derived_segment_count qa qb) qa
         (M_circleFunc_dynamic k (Normal2D qa qb)) x)).
    { intros x. apply generatorFunc_succeeds; [exact Hge|].
      intros p3 r z y. apply succeeds_Ok. }
    rewrite (ComplexQuad_zero_length _ qa Hgen). cbn [bind].
    destruct (ComplexQuad _ qa qb) as [b|e]; cbn [bind]; [|reflexivity].
    f_equal. C_ring.
Qed.

Lemma ComputeM_at_end_point_witness :
  ComputeM (fun _ _ => V2 0 1) 1 (V2 1 0) (V2 1 0) (V2 2 0) true =
  ComputeM (fun _ _ => V2 0 1) 1 (V2 1 0) (V2 1 0) (V2 2 0) false.
Proof.
  apply (ComputeM_at_end_point (fun _ _ => V2 0 1) 1 (V2 1 0) (V2 2 0)).
  - apply V2_neq. left. lra.
  - simpl. lra.
  - simpl. lra.
Defined.
